(** * Numerical notebooks of the etudes repository, in exact arithmetic

    The repository is a gallery of notebooks: the LASSO solved by ADMM (R),
    a Householder QR decomposition used for linear regression (Python), a
    conjugate-gradient solver (Python), one step of an extended Kalman
    filter (Python) and the graphical lasso (R).

    The notebooks compute with floating-point arrays.  This development
    embeds their code over an arbitrary real closed field [R]: every array
    is a MathComp matrix over [R], a one-dimensional array is a column
    vector, and a library call that can fail or leave the real numbers
    (a singular [solve], a division by zero) returns [None].  Concrete
    inputs are taken in the field [algR] of real algebraic numbers.  Two
    further embeddings stand beside it: the covariance update of the Kalman
    filter on arrays of one entry in binary64, and the five notebooks seen
    through the shapes of their arrays alone.

    Part I holds the embedding, Part II the lemmas shared by the results,
    Part III the results on each notebook, Part IV further properties of
    the code. *)

Set Warnings "-notation-overridden,-ambiguous-paths,-deprecated".
From Stdlib Require Import PrimFloat.
From HB Require Import structures.
From mathcomp Require Import boot order algebra.
From mathcomp Require Import algC.

Set Implicit Arguments.
Unset Strict Implicit.
Unset Printing Implicit Defensive.

Import Order.TTheory GRing.Theory Num.Theory.
Local Open Scope ring_scope.

(** * Part I: the embedding *)

(** ** Loops

    A loop returns its final state together with the number of times its
    body ran.  A [while] loop is given fuel; [Failed] is the outcome of a
    body that raised an error or left exact arithmetic. *)

Inductive outcome (S : Type) : Type :=
| Finished (iterations : nat) (final : S)
| OutOfFuel
| Failed.

Arguments OutOfFuel {S}.
Arguments Failed {S}.

(** [for (i in seq(count)) body], [for i in range(count): body] when the body
    does not read [i]. *)
Fixpoint for_loop (S : Type) (count : nat) (body : S -> S) (ran : nat) (s : S)
  : outcome S :=
  if count is c.+1 then for_loop c body ran.+1 (body s) else Finished ran s.

(** [while cond: body]. *)
Fixpoint while_loop (S : Type) (fuel : nat) (cond : S -> bool)
    (body : S -> option S) (ran : nat) (s : S) : outcome S :=
  if cond s then
    if fuel is f.+1 then
      if body s is Some s' then while_loop f cond body ran.+1 s' else Failed
    else OutOfFuel
  else Finished ran s.

(** [for i in items: body], [for (i in items) body], with a body that reads
    [i] and can raise an error. *)
Fixpoint for_each (I S : Type) (items : seq I) (body : I -> S -> option S)
    (ran : nat) (s : S) : outcome S :=
  if items is i :: rest then
    if body i s is Some s' then for_each rest body ran.+1 s' else Failed
  else Finished ran s.

(** The state a loop ends with, if it ends. *)
Definition final (S : Type) (o : outcome S) : option S :=
  if o is Finished _ s then Some s else None.

(** R's [seq(n)] for a count [n >= 0]: [1, ..., n], and [c(1, 0)] for
    [n = 0]. *)
Definition seq_R (n : nat) : seq nat := if n is 0 then [:: 1; 0]%N else iota 1 n.

(** The split of a dimension at a row index, used by the slices [A[i:, i]]
    and [H[i:, i:]]. *)
Lemma tail_dim (m i : nat) : (i < m)%N -> m = (i + (m - i).-1.+1)%N.
Proof. by move=> lt_im; rewrite prednK ?subn_gt0 // subnKC // ltnW. Qed.

Section Model.

Variable R : rcfType.

(** The dot product of two one-dimensional arrays ([np.dot], [a.dot(b)]). *)
Definition dot (n : nat) (u v : 'cV[R]_n) : R := \sum_i u i 0 * v i 0.

(** A two-component array. *)
Definition vec2 (a b : R) : 'cV[R]_2 := \col_i (if i == 0 then a else b).

(** ** admm.ipynb, first notebook: the LASSO by ADMM (R) *)

(** [soft.threshold <- function(x, thresh) sign(x) * max(abs(x) - thresh, 0)].
    R's [max] takes all its arguments, vectors included, to one number. *)
Definition soft_threshold (n : nat) (x : 'cV[R]_n) (thresh : R) : 'cV[R]_n :=
  let m := \big[Num.max/0]_(j < n) (`|x j 0| - thresh) in
  \col_i (Num.sg (x i 0) * m).

(** The element-wise soft-thresholding operator [s] of the notebook's text,
    written from its words to be compared with [soft_threshold]. *)
Definition soft_threshold_elementwise (n : nat) (x : 'cV[R]_n) (thresh : R)
  : 'cV[R]_n :=
  \col_i (Num.sg (x i 0) * Num.max (`|x i 0| - thresh) 0).

(** R's [solve(a)]: the inverse, an error on a singular matrix. *)
Definition solve (n : nat) (a : 'M[R]_n) : option 'M[R]_n :=
  if a \in unitmx then Some (invmx a) else None.

Record admm_state (q : nat) : Type := AdmmState {
  x_step : 'cV[R]_q;
  z_step : 'cV[R]_q;
  u_step : 'cV[R]_q
}.

(** The body of the ADMM loop: the three assignments in their order. *)
Definition admm_update (q : nat) (XtX_rho_in : 'M[R]_q) (Xty : 'cV[R]_q)
    (lambda rho : R) (s : admm_state q) : admm_state q :=
  let x := XtX_rho_in *m (Xty + rho *: (z_step s - u_step s)) in
  let z := soft_threshold (x + u_step s) (lambda / rho) in
  let u := u_step s + x - z in
  AdmmState x z u.

(** The pre-computed matrices, the start [rep(1, p + 1)] and the loop
    [for (i in seq(100))]. *)
Definition admm (n q : nat) (X : 'M[R]_(n, q)) (y : 'cV[R]_n) (lambda rho : R)
  : outcome (admm_state q) :=
  let Xty := X^T *m y in
  let XtX := X^T *m X in
  if solve (XtX + rho *: 1%:M) is Some XtX_rho_in then
    for_loop 100 (admm_update XtX_rho_in Xty lambda rho) 0
      (AdmmState (const_mx 1) (const_mx 1) (const_mx 1))
  else Failed.

(** [coef(lm(y ~ 0 + X))] for a design of full column rank: the solution of
    the normal equations. *)
Definition ols_coefficients (n q : nat) (X : 'M[R]_(n, q)) (y : 'cV[R]_n)
  : 'cV[R]_q :=
  invmx (X^T *m X) *m (X^T *m y).

(** ** admm.ipynb, second notebook: QR decomposition (Python) *)

(** [np.linalg.norm] and [np.copysign]. *)
Definition norm (n : nat) (a : 'cV[R]_n) : R := Num.sqrt (dot a a).

Definition copysign (x y : R) : R := if 0 <= y then `|x| else - `|x|.

(** [House(a)].  The division [a / (a[0] + copysign(norm(a), a[0]))] by zero
    fills [v] with not-a-number entries, of which [v[0] = 1] overwrites the
    first: on an array of two entries or more the result holds
    not-a-number entries ([None]); on an array of one entry nothing of the
    division is left. *)
Definition House (k : nat) (a : 'cV[R]_k.+1) : option 'M[R]_k.+1 :=
  let I := 1%:M in
  let d := a 0 0 + copysign (norm a) (a 0 0) in
  if (d == 0) && (0 < k)%N then None else
  let v := \col_i (if i == 0 then 1 else a i 0 / d) in
  Some (I - (2 / dot v v) *: (v *m v^T)).

(** One turn of the loop of [qr]: [H = np.eye(m)], [H[i:, i:] = House(A[i:, i])],
    [Q = np.dot(Q, H)], [A = np.dot(H, A)].  An index [i] outside the rows
    makes [a[0]] an error in [House]. *)
Definition qr_body (m n : nat) (i : nat) (QA : 'M[R]_m * 'M[R]_(m, n))
  : option ('M[R]_m * 'M[R]_(m, n)) :=
  let: (Q, A) := QA in
  match insub i : option 'I_m, insub i : option 'I_n with
  | Some r, Some c =>
      let e := tail_dim (ltn_ord r) in
      let a := dsubmx (castmx (e, erefl 1%N) (col c A)) in
      if House a is Some Hi then
        let H := castmx (esym e, esym e) (block_mx 1%:M 0 0 Hi) in
        Some (Q *m H, H *m A)
      else None
  | _, _ => None
  end.

(** [qr(A)]: [Q = np.eye(m)], then [for i in range(n - (m == n))]. *)
Definition qr (m n : nat) (A : 'M[R]_(m, n)) : option ('M[R]_m * 'M[R]_(m, n)) :=
  foldl (fun acc i => obind (qr_body i) acc) (Some (1%:M, A))
    (iota 0 (n - (m == n))).

(** The same loop with the number of its turns. *)
Definition qr_loop (m n : nat) (A : 'M[R]_(m, n))
  : outcome ('M[R]_m * 'M[R]_(m, n)) :=
  for_each (iota 0 (n - (m == n))) (@qr_body m n) 0 (1%:M, A).

(** [scipy.linalg.solve_triangular(a, b)]: reads the upper triangle of [a];
    an error when it is singular. *)
Definition solve_triangular (n : nat) (a : 'M[R]_n) (b : 'cV[R]_n)
  : option 'cV[R]_n :=
  let u := \matrix_(i, j) (if (i <= j)%N then a i j else 0) in
  if u \in unitmx then Some (invmx u *m b) else None.

(** [Q, R = qr(x)], [R = R[:P, :P]], [Q = Q[:, :P]],
    [beta_qr = linalg.solve_triangular(R, np.dot(Q.T, y))]. *)
Definition beta_qr (P d : nat) (x : 'M[R]_(P + d, P)) (y : 'cV[R]_(P + d))
  : option 'cV[R]_P :=
  if qr x is Some (Q, Rfull) then
    let R1 := usubmx Rfull in
    let Q1 := lsubmx Q in
    solve_triangular R1 (Q1^T *m y)
  else None.

(** What the reference solver [sm.OLS(y, x).fit().params] returns: a minimiser
    of the sum of squared residuals. *)
Definition sq_residual (n q : nat) (x : 'M[R]_(n, q)) (y : 'cV[R]_n)
    (b : 'cV[R]_q) : R :=
  dot (y - x *m b) (y - x *m b).

Definition least_squares (n q : nat) (x : 'M[R]_(n, q)) (y : 'cV[R]_n)
    (b : 'cV[R]_q) : Prop :=
  forall b' : 'cV[R]_q, sq_residual x y b <= sq_residual x y b'.

(** The state of the loop of [qr] before turn [t], used in the proof of the
    factorization: [Q] is orthogonal, [Q A] is the input [A0], and the first
    [t] columns of [A] vanish below the diagonal. *)
Definition qr_inv (m n : nat) (A0 : 'M[R]_(m, n)) (t : nat)
    (Q : 'M[R]_m) (A : 'M[R]_(m, n)) : Prop :=
  [/\ Q^T *m Q = 1%:M, Q *m A = A0
    & forall (r : 'I_m) (j : 'I_n), (j < t)%N -> (j < r)%N -> A r j = 0].

(** ** Conjugate gradients (Python) *)

Record cg_state (n : nat) : Type := CgState {
  xk : 'cV[R]_n;
  rk : 'cV[R]_n;
  pk : 'cV[R]_n
}.

(** The literal [0.000001]. *)
Definition tolerance : R := (10 ^+ 6)^-1.

(** [any(rk > 0.000001)]. *)
Definition cg_continue (n : nat) (s : cg_state n) : bool :=
  [exists i, tolerance < rk s i 0].

(** A quotient of two numbers; a zero divisor leaves the real numbers. *)
Definition divide (a b : R) : option R :=
  if b == 0 then None else Some (a / b).

(** The body of the loop. [pk.T.dot(A).dot(pk)] is the dot product of the
    array [pk.T.dot(A)] with [pk]. *)
Definition cg_body (n : nat) (A : 'M[R]_n) (s : cg_state n)
  : option (cg_state n) :=
  if divide (dot (rk s) (rk s)) (dot (A^T *m pk s) (pk s)) is Some alpha then
    let xk' := xk s + alpha *: pk s in
    let rd := dot (rk s) (rk s) in
    let rk' := rk s + alpha *: (A *m pk s) in
    if divide (dot rk' rk') rd is Some beta then
      let pk' := - rk' + beta *: pk s in
      Some (CgState xk' rk' pk')
    else None
  else None.

(** The whole cell, from the starting point [xk]. *)
Definition conjugate_gradient (fuel n : nat) (A : 'M[R]_n) (b x0 : 'cV[R]_n)
  : outcome (cg_state n) :=
  let r0 := A *m x0 - b in
  while_loop fuel (@cg_continue n) (cg_body A) 0 (CgState x0 r0 (- r0)).

(** The body of the loop with the field's total division, the residual and
    the search direction after [j] turns from the state [s0], and the
    orthogonality relations that hold up to turn [k]; used in the proof that
    the loop ends. *)
Definition cg_step (n : nat) (A : 'M[R]_n) (s : cg_state n) : cg_state n :=
  let alpha := dot (rk s) (rk s) / dot (A^T *m pk s) (pk s) in
  let rk' := rk s + alpha *: (A *m pk s) in
  CgState (xk s + alpha *: pk s) rk'
    (- rk' + (dot rk' rk' / dot (rk s) (rk s)) *: pk s).

Definition cg_residual (n : nat) (A : 'M[R]_n) (s0 : cg_state n) (j : nat)
  : 'cV[R]_n :=
  rk (iter j (cg_step A) s0).

Definition cg_direction (n : nat) (A : 'M[R]_n) (s0 : cg_state n) (j : nat)
  : 'cV[R]_n :=
  pk (iter j (cg_step A) s0).

Definition cg_inv (n : nat) (A : 'M[R]_n) (s0 : cg_state n) (k : nat) : Prop :=
  [/\ forall i j, (i < j)%N -> (j <= k)%N ->
        dot (cg_residual A s0 i) (cg_residual A s0 j) = 0,
      forall i j, (i < j)%N -> (j <= k)%N ->
        dot (cg_direction A s0 i) (A *m cg_direction A s0 j) = 0,
      forall i j, (i < j)%N -> (j <= k)%N ->
        dot (cg_direction A s0 i) (cg_residual A s0 j) = 0
    & forall j, (j <= k)%N ->
        dot (cg_direction A s0 j) (cg_residual A s0 j)
        = - dot (cg_residual A s0 j) (cg_residual A s0 j)].

(** ** Extended Kalman filter (Python) *)

(** [np.cos] and [np.sin], of which no property is used. *)
Variables cos sin : R -> R.

Definition process_model (n : nat) (x v : 'cV[R]_n) (alpha : R) : 'cV[R]_n :=
  let su := alpha *: x + alpha *: v in
  map_mx sin su.

Definition observation_model (n : nat) (x w : 'cV[R]_n) (k beta : R)
  : 'cV[R]_n :=
  map_mx cos (beta *: x) + k *: w.

Definition a_k (n : nat) (alpha : R) (x v : 'cV[R]_n) : 'M[R]_n :=
  let su := alpha *: x + alpha *: v in
  diag_mx (alpha *: map_mx cos su)^T.

Definition l_k (n : nat) (alpha : R) (x v : 'cV[R]_n) : 'M[R]_n :=
  let su := alpha *: x + alpha *: v in
  diag_mx (alpha *: map_mx cos su)^T.

Definition b_k (n : nat) (beta : R) (x : 'cV[R]_n) : 'M[R]_n :=
  let su := beta *: x in
  diag_mx (beta *: (- map_mx sin su))^T.

Definition j_k (k : R) (dim : nat) : 'M[R]_dim := diag_mx (const_mx k).

Definition update_prior_mean (n : nat)
    (process_model : 'cV[R]_n -> 'cV[R]_n -> R -> 'cV[R]_n)
    (mu_m v : 'cV[R]_n) (alpha : R) : 'cV[R]_n :=
  process_model mu_m v alpha.

Definition update_prior_covariance (n : nat) (cov_m cov_v A L : 'M[R]_n)
  : 'M[R]_n :=
  let su1 := A *m cov_m *m A^T in
  let su2 := L *m cov_v *m L^T in
  su1 + su2.

(** [np.linalg.inv]: an error on a singular matrix. *)
Definition inv (n : nat) (a : 'M[R]_n) : option 'M[R]_n :=
  if a \in unitmx then Some (invmx a) else None.

Definition k_k (n : nat) (cov_p cov_w B J : 'M[R]_n) : option 'M[R]_n :=
  let cov_p_b := cov_p *m B^T in
  let cov_w_j := cov_w *m J^T in
  let within := B *m cov_p_b + J *m cov_w_j in
  if inv within is Some within_inv then Some (cov_p_b *m within_inv) else None.

(** [su = np.dot(K, np.subtract(y, obs) - 2)]: the scalar [2] is subtracted
    from every component. *)
Definition update_posterior_mean (n : nat) (y x w : 'cV[R]_n) (k beta : R)
    (observation_model : 'cV[R]_n -> 'cV[R]_n -> R -> R -> 'cV[R]_n)
    (mu_p : 'cV[R]_n) (K : 'M[R]_n) : 'cV[R]_n :=
  let obs := observation_model x w k beta in
  let su := K *m ((y - obs) - const_mx 2) in
  mu_p + su.

Definition update_posterior_covariance (n : nat) (K B cov_p : 'M[R]_n)
  : 'M[R]_n :=
  let I := 1%:M in
  let su := I - K *m B in
  su *m cov_p.

(** Symmetric positive semi-definite and positive definite matrices. *)
Definition symmetric (n : nat) (M : 'M[R]_n) : Prop := M^T = M.

Definition psd (n : nat) (M : 'M[R]_n) : Prop :=
  forall v : 'cV[R]_n, 0 <= dot v (M *m v).

Definition spd (n : nat) (M : 'M[R]_n) : Prop :=
  symmetric M /\ forall v : 'cV[R]_n, v != 0 -> 0 < dot v (M *m v).

(** ** gaussian_graphical_models.ipynb: the graphical lasso (R)

    [cov(X)] and [glmnet(W_11, S_12, lambda = lambda, alpha = 1)$beta] are
    library code: the loop is embedded over an arbitrary sample covariance
    [S] and an arbitrary solver [glmnet], which may raise an error. *)

(** [Lambda <- A %*% t(A) + 0.05 * diag(p)]. *)
Definition glasso_precision (p : nat) (A : 'M[R]_p) : 'M[R]_p :=
  A *m A^T + (5 / 100) *: 1%:M.

(** The body of the inner loop at the index [pi], on the pair [(W, P)].
    [W[-pi, -pi]] drops row and column [pi]; the two chained assignments
    write the same array in row [pi] and in column [pi].  [1 / 0] leaves the
    real numbers. *)
Definition glasso_update (q : nat)
    (glmnet : 'M[R]_q -> 'cV[R]_q -> R -> option 'cV[R]_q)
    (S : 'M[R]_q.+1) (lambda : R) (WP : 'M[R]_q.+1 * 'M[R]_q.+1)
    (pi : 'I_q.+1) : option ('M[R]_q.+1 * 'M[R]_q.+1) :=
  let: (W, P) := WP in
  let W_11 := row' pi (col' pi W) in
  let S_12 := (row pi (col' pi S))^T in
  if glmnet W_11 S_12 lambda is Some beta then
  let w := W_11 *m beta in
  let W' := \matrix_(r, c) match unlift pi r, unlift pi c with
                           | None, Some c' => w c' 0
                           | Some r', None => w r' 0
                           | _, _ => W r c
                           end in
  if divide 1 (W' pi pi - dot (row' pi (col pi W')) beta) is Some Ppp then
    let P' := \matrix_(r, c) match unlift pi r, unlift pi c with
                             | None, None => Ppp
                             | None, Some c' => - Ppp * beta c' 0
                             | Some r', None => - Ppp * beta r' 0
                             | Some _, Some _ => P r c
                             end in
    Some (W', P')
  else None
  else None.

(** [for (pi in seq(p))]: one sweep over the [p = q + 1] indices. *)
Definition glasso_sweep (q : nat)
    (glmnet : 'M[R]_q -> 'cV[R]_q -> R -> option 'cV[R]_q)
    (S : 'M[R]_q.+1) (lambda : R) (WP : 'M[R]_q.+1 * 'M[R]_q.+1)
  : outcome ('M[R]_q.+1 * 'M[R]_q.+1) :=
  for_each (enum 'I_q.+1) (fun pi WP => glasso_update glmnet S lambda WP pi)
    0 WP.

(** [W <- S + lambda*diag(p)], [P <- diag(p)], then [for (i in seq(maxit))]
    a sweep, with the number of sweeps made. *)
Definition glasso_loop (q : nat)
    (glmnet : 'M[R]_q -> 'cV[R]_q -> R -> option 'cV[R]_q)
    (S : 'M[R]_q.+1) (lambda : R) (maxit : nat)
  : outcome ('M[R]_q.+1 * 'M[R]_q.+1) :=
  let W := S + lambda *: 1%:M in
  let P := 1%:M in
  for_each (seq_R maxit) (fun _ WP => final (glasso_sweep glmnet S lambda WP))
    0 (W, P).

(** The pair [(W, P)] the cell ends with. *)
Definition glasso (q : nat)
    (glmnet : 'M[R]_q -> 'cV[R]_q -> R -> option 'cV[R]_q)
    (S : 'M[R]_q.+1) (lambda : R) (maxit : nat)
  : option ('M[R]_q.+1 * 'M[R]_q.+1) :=
  final (glasso_loop glmnet S lambda maxit).

(** What a sweep keeps, used in the proofs: [W] and [P] are symmetric and
    the diagonal of [W] is the diagonal of [S] plus [lambda]. *)
Definition glasso_inv (q : nat) (S : 'M[R]_q.+1) (lambda : R)
    (WP : 'M[R]_q.+1 * 'M[R]_q.+1) : Prop :=
  [/\ symmetric WP.1, symmetric WP.2 & forall r, WP.1 r r = S r r + lambda].

(** ** The notebooks' random inputs

    R and NumPy draw from a generator whose state is global to the session.
    The generators themselves are library code: a notebook is embedded over
    an arbitrary one, given by its states, its seeding ([set.seed],
    [np.random.seed]) and the draw of one standard normal variate, which
    returns the next state. *)

Record generator : Type := Generator {
  gstate : Type;
  seed : nat -> gstate;
  normal : gstate -> R * gstate
}.

(** [rnorm(count)], [np.random.normal(size=count)]. *)
Fixpoint draws (G : generator) (count : nat) (g : gstate G)
  : seq R * gstate G :=
  if count is c.+1 then
    let: (v, g1) := normal g in
    let: (vs, g2) := draws c g1 in
    (v :: vs, g2)
  else ([::], g).

(** The data cell of the ADMM notebook, from the state [g0] the session is
    in: [beta <- c(1, rnorm(p))], [X <- cbind(1, matrix(rnorm(n * p), n))]
    (filled by columns), [y <- X %*% beta + rnorm(n)].  No seed is set. *)
Definition admm_simulate (G : generator) (n p : nat) (g0 : gstate G)
  : 'cV[R]_(1 + p) * 'M[R]_(n, 1 + p) * 'cV[R]_n :=
  let: (b, g1) := draws p g0 in
  let beta := col_mx (const_mx 1 : 'cV[R]_1) (\col_i nth 0 b i) in
  let: (xs, g2) := draws (n * p) g1 in
  let X :=
    row_mx (const_mx 1 : 'cV[R]_n) (\matrix_(i, j) nth 0 xs (j * n + i)) in
  let: (e, g3) := draws n g2 in
  let y := X *m beta + \col_i nth 0 e i in
  (beta, X, y).

(** The data cells of the conjugate-gradient notebook: [N = 5],
    [np.random.seed(23)], a Wishart sample [A] drawn by SciPy from the
    global state, [A = A.T A], then [x], [b = A.dot(x)] and the start [xk]. *)
Definition cg_simulate (G : generator)
    (wishart_rvs : gstate G -> 'M[R]_5 * gstate G) (g0 : gstate G)
  : 'M[R]_5 * 'cV[R]_5 * 'cV[R]_5 :=
  let g := seed G 23 in
  let: (W, g1) := wishart_rvs g in
  let A := W^T *m W in
  let: (xs, g2) := draws 5 g1 in
  let x := \col_i nth 0 xs i in
  let b := A *m x in
  let: (x0, g3) := draws 5 g2 in
  (A, b, \col_i nth 0 x0 i).

End Model.

Arguments draws {R} G count g.
Arguments admm_simulate {R} G n p g0.
Arguments cg_simulate {R} G wishart_rvs g0.


(** ** extended_kalman_filter.ipynb in binary64

    The arrays of the notebook hold NumPy's [float64] numbers.  On arrays of
    one row and one column [A.T] is [A], [np.matmul], [np.add] and
    [np.subtract] are one multiplication, one addition and one subtraction
    of binary64 numbers, and [np.linalg.inv] divides [1] by the entry, with
    an error on the entry [0].  A matrix with the single entry [x] is
    positive semi-definite when [0 <= x]. *)

Definition inv_binary64 (a : float) : option float :=
  if PrimFloat.eqb a 0%float then None else Some (PrimFloat.div 1%float a).

Definition k_k_binary64 (cov_p cov_w B J : float) : option float :=
  let cov_p_b := PrimFloat.mul cov_p B in
  let cov_w_j := PrimFloat.mul cov_w J in
  let within :=
    PrimFloat.add (PrimFloat.mul B cov_p_b) (PrimFloat.mul J cov_w_j) in
  if inv_binary64 within is Some within_inv
  then Some (PrimFloat.mul cov_p_b within_inv) else None.

Definition update_posterior_covariance_binary64 (K B cov_p : float) : float :=
  let I := 1%float in
  let su := PrimFloat.sub I (PrimFloat.mul K B) in
  PrimFloat.mul su cov_p.

Definition psd_binary64 (x : float) : bool := PrimFloat.leb 0%float x.

(** ** The shapes of the arrays

    An array is seen here through its shape alone: the shape tuple of a NumPy
    array, the [dim] attribute of an R matrix or data frame, the length of an
    R vector.  A Python number has the empty shape, an R number is a vector
    of length one.  A cell is a program that returns the shapes of its
    results and lists the shape of everything it constructs, the most recent
    first.  It fails where the library raises a shape error, and also on the
    uses of an operation that no notebook makes, which are left out.  Library
    functions ([lm], [glmnet], [mvrnorm], [sm.OLS], ...) are seen through the
    shape of what they return. *)

Definition dims : Type := seq nat.

Definition Shapes (T : Type) : Type := seq dims -> option (T * seq dims).

Definition ret (T : Type) (x : T) : Shapes T := fun log => Some (x, log).

Definition bind (T U : Type) (c : Shapes T) (f : T -> Shapes U) : Shapes U :=
  fun log => if c log is Some (x, log') then f x log' else None.

Definition raise (T : Type) : Shapes T := fun=> None.

(** The construction of an array of shape [d]. *)
Definition array (d : dims) : Shapes dims := fun log => Some (d, d :: log).

Declare Scope shapes_scope.
Delimit Scope shapes_scope with shapes.
Notation "x <-- c ;; f" := (bind c (fun x => f))
  (at level 61, c at next level, right associativity) : shapes_scope.
Notation "c ;;; f" := (bind c (fun _ => f))
  (at level 61, right associativity) : shapes_scope.
Section Shapes.

Local Open Scope nat_scope.
Local Open Scope shapes_scope.

(** [for i in items: body]; the state holds the shapes of the variables that
    the body assigns. *)
Fixpoint for_shapes (I S : Type) (items : seq I) (body : I -> S -> Shapes S)
    (s : S) : Shapes S :=
  if items is i :: rest then s' <-- body i s ;; for_shapes rest body s'
  else ret s.

(** [while cond: body] that makes [turns] turns: the condition is computed
    before every turn and once more at the end. *)
Fixpoint while_shapes (S : Type) (turns : nat) (cond : S -> Shapes unit)
    (body : S -> Shapes S) (s : S) : Shapes S :=
  cond s ;;;
  if turns is t.+1 then s' <-- body s ;; while_shapes t cond body s'
  else ret s.

(** A matrix of at most [rows] rows and [cols] columns; a shape that is not
    of two dimensions is no matrix. *)
Definition within (rows cols : nat) (d : dims) : bool :=
  if d is [:: r; c] then (r <= rows) && (c <= cols) else true.

(** The program runs without a shape error and constructs matrices of at
    most [rows] rows and [cols] columns only. *)
Definition bounded (T : Type) (rows cols : nat) (c : Shapes T) : bool :=
  if c [::] is Some (_, log) then all (within rows cols) log else false.

(** The number of entries. *)
Definition entries (d : dims) : nat := foldr muln 1 d.

(** *** NumPy *)

(** Broadcasting of two shapes, aligned on their last axes. *)
Fixpoint broadcast_rev (a b : dims) : option dims :=
  match a, b with
  | [::], _ => Some b
  | _, [::] => Some a
  | x :: a', y :: b' =>
      if (x == y) || (y == 1) then omap (cons x) (broadcast_rev a' b')
      else if x == 1 then omap (cons y) (broadcast_rev a' b')
      else None
  end.

Definition broadcast (a b : dims) : option dims :=
  omap rev (broadcast_rev (rev a) (rev b)).

(** An element-wise operation of two arguments: [+], [-], [*], [/], [>],
    [np.add], [np.subtract], [np.multiply], [np.copysign]. *)
Definition np_elementwise (a b : dims) : Shapes dims :=
  if broadcast a b is Some d then array d else raise _.

(** What has the shape of its argument: [-a], [np.sin(a)], [np.cos(a)],
    [np.asarray(a)]. *)
Definition np_like (a : dims) : Shapes dims := array a.

(** A number computed from an array: [np.linalg.norm(a)], [sp.all(a)]. *)
Definition np_number (a : dims) : Shapes dims := array [::].

(** [np.array(list)] of [k] numbers, [np.random.normal(size=d)],
    [sp.random.randn(k)], [np.matrix(rows)], [stats.wishart.rvs] of
    dimension one with [size=d]. *)
Definition np_new (d : dims) : Shapes dims := array d.

(** [np.dot(a, b)], [a.dot(b)] and [np.matmul(a, b)] on arrays of at most two
    dimensions. *)
Definition np_dot (a b : dims) : Shapes dims :=
  match a, b with
  | [::], _ => array b
  | _, [::] => array a
  | [:: k], [:: k'] => if k == k' then array [::] else raise _
  | [:: m; k], [:: k'] => if k == k' then array [:: m] else raise _
  | [:: k], [:: k'; n] => if k == k' then array [:: n] else raise _
  | [:: m; k], [:: k'; n] => if k == k' then array [:: m; n] else raise _
  | _, _ => raise _
  end.

(** [np.dot(K, v)] of an [np.matrix] and an array of one dimension: the
    product is wrapped as a matrix of one row. *)
Definition np_matrix_dot (K v : dims) : Shapes dims :=
  match K, v with
  | [:: m; k], [:: k'] => if k == k' then array [:: 1; m] else raise _
  | _, _ => raise _
  end.

(** [a.T]. *)
Definition np_T (a : dims) : Shapes dims := array (rev a).

(** [np.eye(m)]. *)
Definition np_eye (m : nat) : Shapes dims := array [:: m; m].

(** [np.diag(v)] of an array or list of one dimension. *)
Definition np_diag (v : dims) : Shapes dims :=
  if v is [:: k] then array [:: k; k] else raise _.

(** [sp.linalg.eigvals(a)]: one eigenvalue for each row of a square [a]. *)
Definition np_eigvals (a : dims) : Shapes dims :=
  if a is [:: m; n] then if m == n then array [:: n] else raise _ else raise _.

(** [np.linalg.inv(a)]. *)
Definition np_inv (a : dims) : Shapes dims :=
  if a is [:: m; n] then if m == n then array a else raise _ else raise _.

(** [a.reshape(-1)]. *)
Definition np_flat (a : dims) : Shapes dims := array [:: entries a].

(** [a[0]] on an array of one dimension: a number. *)
Definition np_first (a : dims) : Shapes dims :=
  if a is [:: k] then if (0 < k)%N then array [::] else raise _ else raise _.

(** [v[0] = 1]. *)
Definition np_set_first (v : dims) : Shapes unit :=
  if v is [:: k] then if (0 < k)%N then ret tt else raise _ else raise _.

(** [v[:, None]] and [v[None, :]]. *)
Definition np_column (v : dims) : Shapes dims :=
  if v is [:: k] then array [:: k; 1] else raise _.

Definition np_row (v : dims) : Shapes dims :=
  if v is [:: k] then array [:: 1; k] else raise _.

(** [A[i:, i]]. *)
Definition np_column_below (A : dims) (i : nat) : Shapes dims :=
  if A is [:: m; n] then if (i < n)%N then array [:: m - i] else raise _
  else raise _.

(** [H[i:, i:] = X]: the block of [H] is a view, to whose shape [X] is
    broadcast. *)
Definition np_set_block (H : dims) (i : nat) (X : dims) : Shapes unit :=
  if H is [:: m; n] then
    block <-- array [:: m - i; n - i] ;;
    if broadcast block X == Some block then ret tt else raise _
  else raise _.

(** [A[:r, :c]] and [A[:, :c]]. *)
Definition np_top_left (A : dims) (r c : nat) : Shapes dims :=
  if A is [:: m; n] then array [:: minn r m; minn c n] else raise _.

Definition np_left (A : dims) (c : nat) : Shapes dims :=
  if A is [:: m; n] then array [:: m; minn c n] else raise _.

(** [linalg.solve_triangular(a, b)] with [b] of one dimension. *)
Definition solve_triangular_shapes (a b : dims) : Shapes dims :=
  match a, b with
  | [:: m; n], [:: k] => if (m == n) && (n == k) then array [:: k] else raise _
  | _, _ => raise _
  end.

(** [sm.OLS(y, x).fit().params]. *)
Definition ols_params_shapes (y x : dims) : Shapes dims :=
  match y, x with
  | [:: k], [:: m; n] => if k == m then array [:: n] else raise _
  | _, _ => raise _
  end.

(** **** admm.ipynb, second notebook *)

(** [House(a)]. *)
Definition House_shapes (a : dims) : Shapes dims :=
  if a is k :: _ then
    I <-- np_eye k ;;
    a0 <-- np_first a ;;
    nrm <-- np_number a ;;
    a0' <-- np_first a ;;
    cs <-- np_elementwise nrm a0' ;;
    d <-- np_elementwise a0 cs ;;
    v <-- np_elementwise a d ;;
    np_set_first v ;;;
    vv <-- np_dot v v ;;
    c <-- np_elementwise [::] vv ;;
    vc <-- np_column v ;;
    vr <-- np_row v ;;
    outer <-- np_dot vc vr ;;
    scaled <-- np_elementwise c outer ;;
    np_elementwise I scaled
  else raise _.

(** [qr(A)]. *)
Definition qr_shapes (A : dims) : Shapes (dims * dims) :=
  if A is [:: m; n] then
    Q <-- np_eye m ;;
    for_shapes (iota 0 (n - (m == n)))
      (fun i QA =>
         let: (Q, A) := QA in
         H <-- np_eye m ;;
         a <-- np_column_below A i ;;
         Hi <-- House_shapes a ;;
         np_set_block H i Hi ;;;
         Q' <-- np_dot Q H ;;
         A' <-- np_dot H A ;;
         ret (Q', A'))
      (Q, A)
  else raise _.

(** The cells of the notebook, in their order; the result is the pair of
    the shapes that the cell [Q, R = qr(x)] prints. *)
Definition qr_notebook : Shapes (dims * dims) :=
  let P := 5 in
  beta <-- np_new [:: P] ;;
  x <-- np_new [:: 100; P] ;;
  xb <-- np_dot x beta ;;
  e <-- np_new [:: 100] ;;
  y <-- np_elementwise xb e ;;
  QR <-- qr_shapes x ;;
  let: (Q, R) := QR in
  np_top_left R 5 3 ;;;
  R1 <-- np_top_left R P P ;;
  Q1 <-- np_left Q P ;;
  Qt <-- np_T Q1 ;;
  Qty <-- np_dot Qt y ;;
  solve_triangular_shapes R1 Qty ;;;
  ols_params_shapes y x ;;;
  ret (Q, R).

(** **** The conjugate-gradient notebook *)

(** The loop of the notebook when it makes [turns] turns. *)
Definition cg_loop_shapes (turns : nat) (A b : dims) (s : dims * dims * dims)
  : Shapes (dims * dims * dims) :=
  while_shapes turns
    (fun s => let: (xk, rk, pk) := s in
       np_elementwise rk [::] ;;; ret tt)
    (fun s => let: (xk, rk, pk) := s in
       rkT <-- np_T rk ;;
       rr <-- np_dot rkT rk ;;
       pkT <-- np_T pk ;;
       pA <-- np_dot pkT A ;;
       pAp <-- np_dot pA pk ;;
       alpha <-- np_elementwise rr pAp ;;
       ap <-- np_elementwise alpha pk ;;
       xk' <-- np_elementwise xk ap ;;
       rkT' <-- np_T rk ;;
       rd <-- np_dot rkT' rk ;;
       Ap <-- np_dot A pk ;;
       aAp <-- np_elementwise alpha Ap ;;
       rk' <-- np_elementwise rk aAp ;;
       rkT'' <-- np_T rk' ;;
       rr' <-- np_dot rkT'' rk' ;;
       beta <-- np_elementwise rr' rd ;;
       nr <-- np_like rk' ;;
       bp <-- np_elementwise beta pk ;;
       pk' <-- np_elementwise nr bp ;;
       ret (xk', rk', pk'))
    s.

Definition cg_notebook (turns : nat) : Shapes (dims * dims * dims) :=
  let N := 5 in
  W <-- np_new [:: N; N] ;;
  Wt <-- np_T W ;;
  A <-- np_dot Wt W ;;
  ev <-- np_eigvals A ;;
  pos <-- np_elementwise ev [::] ;;
  np_number pos ;;;
  x <-- np_new [:: N] ;;
  b <-- np_dot A x ;;
  xk <-- np_new [:: N] ;;
  Ax <-- np_dot A xk ;;
  rk <-- np_elementwise Ax b ;;
  pk <-- np_like rk ;;
  s <-- cg_loop_shapes turns A b (xk, rk, pk) ;;
  let: (xk', _, _) := s in
  np_dot A x ;;;
  np_dot A xk' ;;;
  ret s.

(** **** extended_kalman_filter.ipynb *)

Definition process_model_shapes (x v alpha : dims) : Shapes dims :=
  ax <-- np_elementwise alpha x ;;
  av <-- np_elementwise alpha v ;;
  su <-- np_elementwise ax av ;;
  np_like su.

Definition observation_model_shapes (x w k beta : dims) : Shapes dims :=
  bx <-- np_elementwise beta x ;;
  c <-- np_like bx ;;
  kw <-- np_elementwise k w ;;
  np_elementwise c kw.

Definition a_k_shapes (alpha x v : dims) : Shapes dims :=
  ax <-- np_elementwise alpha x ;;
  av <-- np_elementwise alpha v ;;
  su <-- np_elementwise ax av ;;
  c <-- np_like su ;;
  ac <-- np_elementwise alpha c ;;
  np_diag ac.

Definition l_k_shapes (alpha x v : dims) : Shapes dims :=
  ax <-- np_elementwise alpha x ;;
  av <-- np_elementwise alpha v ;;
  su <-- np_elementwise ax av ;;
  c <-- np_like su ;;
  ac <-- np_elementwise alpha c ;;
  np_diag ac.

Definition update_prior_mean_shapes
    (process_model : dims -> dims -> dims -> Shapes dims)
    (mu_m v alpha : dims) : Shapes dims :=
  process_model mu_m v alpha.

Definition update_prior_covariance_shapes (cov_m cov_v A L : dims)
  : Shapes dims :=
  Ac <-- np_dot A cov_m ;;
  At <-- np_T A ;;
  su1 <-- np_dot Ac At ;;
  Lc <-- np_dot L cov_v ;;
  Lt <-- np_T L ;;
  su2 <-- np_dot Lc Lt ;;
  np_elementwise su1 su2.

Definition b_k_shapes (beta x : dims) : Shapes dims :=
  su <-- np_elementwise beta x ;;
  s <-- np_like su ;;
  ns <-- np_like s ;;
  bs <-- np_elementwise beta ns ;;
  np_diag bs.

Definition j_k_shapes (k : dims) (dim : nat) : Shapes dims :=
  np_diag [:: dim].

Definition k_k_shapes (cov_p cov_w B J : dims) : Shapes dims :=
  Bt <-- np_T B ;;
  cov_p_b <-- np_dot cov_p Bt ;;
  Jt <-- np_T J ;;
  cov_w_j <-- np_dot cov_w Jt ;;
  Bc <-- np_dot B cov_p_b ;;
  Jc <-- np_dot J cov_w_j ;;
  within_ <-- np_elementwise Bc Jc ;;
  wi <-- np_inv within_ ;;
  np_dot cov_p_b wi.

(** [K] is an [np.matrix]: [np.dot(K, ...)] has one row, which
    [np.asarray(...).reshape(-1)] flattens. *)
Definition update_posterior_mean_shapes (y x w k beta : dims)
    (observation_model : dims -> dims -> dims -> dims -> Shapes dims)
    (mu_p K : dims) : Shapes dims :=
  obs <-- observation_model x w k beta ;;
  d <-- np_elementwise y obs ;;
  d2 <-- np_elementwise d [::] ;;
  su <-- np_matrix_dot K d2 ;;
  s <-- np_elementwise mu_p su ;;
  a <-- np_like s ;;
  np_flat a.

Definition update_posterior_covariance_shapes (K B cov_p : dims)
  : Shapes dims :=
  if K is m :: _ then
    I <-- np_diag [:: m] ;;
    KB <-- np_dot K B ;;
    su <-- np_elementwise I KB ;;
    np_dot su cov_p
  else raise _.

(** The cells of the notebook, in their order. *)
Definition ekf_notebook : Shapes (dims * dims) :=
  x0 <-- np_new [:: 2] ;;
  let mu_m := x0 in
  cov_m <-- np_new [:: 2; 2] ;;
  mu_v <-- np_new [:: 2] ;;
  cov_v <-- np_new [:: 2; 2] ;;
  mu_w <-- np_new [:: 2] ;;
  cov_w <-- np_new [:: 2; 2] ;;
  let k := [::] in
  let alpha := [::] in
  let beta := [::] in
  A <-- a_k_shapes alpha mu_m mu_v ;;
  L <-- l_k_shapes alpha mu_m mu_v ;;
  mu_p <-- update_prior_mean_shapes process_model_shapes mu_m mu_v alpha ;;
  cov_p <-- update_prior_covariance_shapes cov_m cov_v A L ;;
  B <-- b_k_shapes beta mu_p ;;
  J <-- j_k_shapes k 2 ;;
  K <-- k_k_shapes cov_p cov_w B J ;;
  y <-- np_new [:: 2] ;;
  mu_m' <-- update_posterior_mean_shapes y mu_p mu_w k beta
              observation_model_shapes mu_p K ;;
  cov_m' <-- update_posterior_covariance_shapes K B cov_p ;;
  ret (mu_m', cov_m').

(** *** R *)

(** A new vector of [k] entries: [rnorm(k)], [rep(1, k)]; an R number. *)
Definition r_vector (k : nat) : Shapes dims := array [:: k].

(** [rsparsematrix(nrow, ncol, density)]. *)
Definition r_rsparsematrix (nrow ncol : nat) : Shapes dims :=
  array [:: nrow; ncol].

Definition r_number : dims := [:: 1].

(** [c(a, b)] of two vectors. *)
Definition r_c (a b : dims) : Shapes dims :=
  match a, b with
  | [:: k], [:: k'] => array [:: k + k']
  | _, _ => raise _
  end.

(** [matrix(v, nrow)] of a vector whose length is a multiple of [nrow]. *)
Definition r_matrix (v : dims) (nrow : nat) : Shapes dims :=
  if v is [:: k] then
    if (0 < nrow)%N && (nrow %| k)%N then array [:: nrow; k %/ nrow]
    else raise _
  else raise _.

(** [cbind(1, M)] of a number and a matrix; [cbind(Type = "...", D)] of a
    string and a data frame. *)
Definition r_cbind (M : dims) : Shapes dims :=
  if M is [:: r; c] then array [:: r; c.+1] else raise _.

(** [rbind(D, E)] of two data frames. *)
Definition r_rbind (D E : dims) : Shapes dims :=
  match D, E with
  | [:: r; c], [:: r'; c'] => if c == c' then array [:: r + r'; c] else raise _
  | _, _ => raise _
  end.

(** [reshape2::melt(M)] of a matrix: a data frame of one row for each entry
    and the three columns [Var1], [Var2] and [value]. *)
Definition r_melt (M : dims) : Shapes dims :=
  if M is [:: r; c] then array [:: r * c; 3] else raise _.

(** [t(M)]. *)
Definition r_t (M : dims) : Shapes dims :=
  match M with
  | [:: r; c] => array [:: c; r]
  | [:: k] => array [:: 1; k]
  | _ => raise _
  end.

(** [diag(k)] of a number [k]: the identity matrix. *)
Definition r_diag (k : nat) : Shapes dims := array [:: k; k].

(** [a %*% b]; a vector is taken as a column or as a row, whichever
    conforms. *)
Definition r_matmul (a b : dims) : Shapes dims :=
  match a, b with
  | [:: r; c], [:: r'; c'] => if c == r' then array [:: r; c'] else raise _
  | [:: r; c], [:: k] =>
      if c == k then array [:: r; 1]
      else if c == 1 then array [:: r; k] else raise _
  | [:: k], [:: r; c] =>
      if k == r then array [:: 1; c]
      else if r == 1 then array [:: k; c] else raise _
  | [:: k], [:: k'] => if k == k' then array [:: 1; 1] else raise _
  | _, _ => raise _
  end.

(** Element-wise arithmetic ([+], [-], [*], [/]) on vectors of positive
    length and matrices: a vector is recycled along a matrix that has at
    least as many entries, two matrices have the same [dim]. *)
Definition r_arith (a b : dims) : Shapes dims :=
  match a, b with
  | [:: k], [:: k'] =>
      if (0 < k)%N && (0 < k')%N then array [:: maxn k k'] else raise _
  | [:: r; c], [:: k] =>
      if (0 < k)%N && (k <= r * c)%N then array [:: r; c] else raise _
  | [:: k], [:: r; c] =>
      if (0 < k)%N && (k <= r * c)%N then array [:: r; c] else raise _
  | [:: r; c], [:: r'; c'] =>
      if (r == r') && (c == c') then array [:: r; c] else raise _
  | _, _ => raise _
  end.

(** What has the shape of its argument: [-a], [abs(a)], [sign(a)],
    [as.matrix(a)], [solve(a)] of a square matrix. *)
Definition r_like (a : dims) : Shapes dims := array a.

Definition r_solve (a : dims) : Shapes dims :=
  if a is [:: r; c] then if r == c then array a else raise _ else raise _.

(** [max(a, 0)], [max(a)]: a number. *)
Definition r_max (a : dims) : Shapes dims := array [:: 1].

(** [as.vector(a)]. *)
Definition r_as_vector (a : dims) : Shapes dims := array [:: entries a].

(** The indices of the graphical lasso on a matrix of three rows and
    columns or more, for [1 <= pi] within the matrix: [M[-pi, -pi]],
    [M[pi, -pi]], [M[-pi, pi]], [M[pi, pi]]. *)
Definition r_inside (M : dims) (pi : nat) : bool :=
  if M is [:: r; c] then [&& (0 < pi)%N, (pi <= r)%N, (pi <= c)%N,
                             (2 < r)%N & (2 < c)%N]
  else false.

Definition r_minor (M : dims) (pi : nat) : Shapes dims :=
  if r_inside M pi then array [:: (nth 0 M 0).-1; (nth 0 M 1).-1]
  else raise _.

Definition r_row_without (M : dims) (pi : nat) : Shapes dims :=
  if r_inside M pi then array [:: (nth 0 M 1).-1] else raise _.

Definition r_column_without (M : dims) (pi : nat) : Shapes dims :=
  if r_inside M pi then array [:: (nth 0 M 0).-1] else raise _.

Definition r_entry (M : dims) (pi : nat) : Shapes dims :=
  if r_inside M pi then array [:: 1] else raise _.

(** An assignment to [slots] entries of a value with as many entries. *)
Definition r_assign (slots : nat) (v : dims) : Shapes unit :=
  if entries v == slots then ret tt else raise _.

(** [coef(lm(y ~ 0 + X))]: one coefficient for each column of [X]. *)
Definition r_coef_lm (y X : dims) : Shapes dims :=
  match y, X with
  | [:: n; 1], [:: n'; q] => if n == n' then array [:: q] else raise _
  | _, _ => raise _
  end.

(** [glmnet(x, y, lambda = lambda, alpha = 1)$beta]: a matrix of one column
    with one row for each of the two or more columns of [x]. *)
Definition r_glmnet_beta (x y : dims) : Shapes dims :=
  match x, y with
  | [:: n; q], [:: n'] =>
      if (n == n') && (1 < q)%N then array [:: q; 1] else raise _
  | _, _ => raise _
  end.

(** [cov(X)]. *)
Definition r_cov (X : dims) : Shapes dims :=
  if X is [:: n; q] then array [:: q; q] else raise _.

(** [MASS::mvrnorm(n, mu, Sigma)] for [n > 1]. *)
Definition r_mvrnorm (n : nat) (mu Sigma : dims) : Shapes dims :=
  match mu, Sigma with
  | [:: q], [:: r; c] =>
      if [&& (1 < n)%N, q == r & q == c] then array [:: n; q] else raise _
  | _, _ => raise _
  end.

(** **** admm.ipynb, first notebook *)

Definition soft_threshold_shapes (x thresh : dims) : Shapes dims :=
  s <-- r_like x ;;
  a <-- r_like x ;;
  d <-- r_arith a thresh ;;
  m <-- r_max d ;;
  r_arith s m.

(** The cells of the notebook, in their order; [plot] constructs no
    array. *)
Definition admm_notebook : Shapes (dims * dims * dims) :=
  let n := 1000 in
  let p := 10 in
  b <-- r_vector p ;;
  beta <-- r_c r_number b ;;
  xs <-- r_vector (n * p) ;;
  M <-- r_matrix xs n ;;
  X <-- r_cbind M ;;
  Xb <-- r_matmul X beta ;;
  e <-- r_vector n ;;
  y <-- r_arith Xb e ;;
  let lambda := r_number in
  let rho := r_number in
  tX <-- r_t X ;;
  Xty <-- r_matmul tX y ;;
  tX' <-- r_t X ;;
  XtX <-- r_matmul tX' X ;;
  I <-- r_diag (p + 1) ;;
  rI <-- r_arith rho I ;;
  G <-- r_arith XtX rI ;;
  XtX_rho_in <-- r_solve G ;;
  start <-- r_vector (p + 1) ;;
  s <-- for_shapes (seq_R 100)
    (fun _ s => let: (x_step, z_step, u_step) := s in
       d <-- r_arith z_step u_step ;;
       rd <-- r_arith rho d ;;
       a <-- r_arith Xty rd ;;
       x_step' <-- r_matmul XtX_rho_in a ;;
       xu <-- r_arith x_step' u_step ;;
       t <-- r_arith lambda rho ;;
       z_step' <-- soft_threshold_shapes xu t ;;
       ux <-- r_arith u_step x_step' ;;
       u_step' <-- r_arith ux z_step' ;;
       ret (x_step', z_step', u_step'))
    (start, start, start) ;;
  r_coef_lm y X ;;;
  ret s.

(** **** gaussian_graphical_models.ipynb *)

(** The cells of the notebook, in their order; the last two build the data
    frames that [ggplot] draws. *)
Definition glasso_notebook : Shapes (dims * dims) :=
  let n := 1000 in
  let p := 10 in
  let lambda := r_number in
  let maxit := 100 in
  A <-- r_rsparsematrix p p ;;
  tA <-- r_t A ;;
  AA <-- r_matmul A tA ;;
  I <-- r_diag p ;;
  cI <-- r_arith r_number I ;;
  Lambda <-- r_arith AA cI ;;
  Li <-- r_solve Lambda ;;
  Sigma0 <-- r_like Li ;;
  mx <-- r_max Sigma0 ;;
  Sigma <-- r_arith Sigma0 mx ;;
  mu <-- r_vector p ;;
  X <-- r_mvrnorm n mu Sigma ;;
  S <-- r_cov X ;;
  I' <-- r_diag p ;;
  lI <-- r_arith lambda I' ;;
  W <-- r_arith S lI ;;
  P <-- r_diag p ;;
  WP <-- for_shapes (seq_R maxit)
    (fun _ WP =>
       for_shapes (seq_R p)
         (fun pi WP => let: (W, P) := WP in
            W_11 <-- r_minor W pi ;;
            S_12 <-- r_row_without S pi ;;
            b <-- r_glmnet_beta W_11 S_12 ;;
            beta <-- r_as_vector b ;;
            w <-- r_matmul W_11 beta ;;
            r_assign (nth 0 W 0).-1 w ;;;
            r_assign (nth 0 W 1).-1 w ;;;
            Wpp <-- r_entry W pi ;;
            w12 <-- r_column_without W pi ;;
            wb <-- r_matmul w12 beta ;;
            d <-- r_arith Wpp wb ;;
            Ppp <-- r_arith r_number d ;;
            r_assign 1 Ppp ;;;
            Ppp' <-- r_entry P pi ;;
            nP <-- r_like Ppp' ;;
            pb <-- r_arith nP beta ;;
            r_assign (nth 0 P 1).-1 pb ;;;
            r_assign (nth 0 P 0).-1 pb ;;;
            ret (W, P))
         WP)
    (W, P) ;;
  let: (W, P) := WP in
  mW <-- r_melt W ;;
  W' <-- r_cbind mW ;;
  mS <-- r_melt Sigma ;;
  Sigma' <-- r_cbind mS ;;
  r_rbind W' Sigma' ;;;
  ret (W, P).

End Shapes.

(** A generator for examples: the state is a counter, a draw returns it. *)
Definition counter : generator algR :=
  Generator (fun s : nat => s) (fun g : nat => (g%:R, g.+1)).

(** * Part II: shared lemmas *)

(** ** Dot products *)

Section DotTheory.
Variable R : rcfType.

Lemma dot_mulmx n (u v : 'cV[R]_n) : dot u v = (u^T *m v) 0 0.
Proof. by rewrite mxE; apply: eq_bigr => i _; rewrite mxE. Qed.

Lemma dotC n (u v : 'cV[R]_n) : dot u v = dot v u.
Proof. by apply: eq_bigr => i _; rewrite mulrC. Qed.

Lemma dot_ge0 n (v : 'cV[R]_n) : 0 <= dot v v.
Proof. by apply: sumr_ge0 => i _; rewrite -expr2 sqr_ge0. Qed.

Lemma dot_eq0 n (v : 'cV[R]_n) : (dot v v == 0) = (v == 0).
Proof.
apply/idP/eqP => [/eqP h|->]; last by rewrite /dot big1 // => i _; rewrite mxE mul0r.
have pos (i : 'I_n) : true -> 0 <= v i 0 * v i 0 by rewrite -expr2 sqr_ge0.
apply/colP => i; rewrite mxE; apply/eqP; rewrite -sqrf_eq0 expr2.
by apply/eqP; move: h; rewrite /dot => /(psumr_eq0P pos) /(_ i isT).
Qed.

Lemma dotDl n (u v w : 'cV[R]_n) : dot (u + v) w = dot u w + dot v w.
Proof. by rewrite !dot_mulmx linearD /= mulmxDl mxE. Qed.

Lemma dotDr n (u v w : 'cV[R]_n) : dot u (v + w) = dot u v + dot u w.
Proof. by rewrite !dot_mulmx mulmxDr mxE. Qed.

Lemma dotZl n a (u v : 'cV[R]_n) : dot (a *: u) v = a * dot u v.
Proof. by rewrite !dot_mulmx linearZ /= -scalemxAl mxE. Qed.

Lemma dotZr n a (u v : 'cV[R]_n) : dot u (a *: v) = a * dot u v.
Proof. by rewrite !dot_mulmx -scalemxAr mxE. Qed.

Lemma dotNl n (u v : 'cV[R]_n) : dot (- u) v = - dot u v.
Proof. by rewrite -scaleN1r dotZl mulN1r. Qed.

Lemma dotNr n (u v : 'cV[R]_n) : dot u (- v) = - dot u v.
Proof. by rewrite -scaleN1r dotZr mulN1r. Qed.

Lemma dot0l n (v : 'cV[R]_n) : dot 0 v = 0.
Proof. by rewrite /dot big1 // => i _; rewrite mxE mul0r. Qed.

Lemma dot0r n (v : 'cV[R]_n) : dot v 0 = 0.
Proof. by rewrite dotC dot0l. Qed.

(** Moving a matrix across the dot product. *)
Lemma dot_mulmxl m n (M : 'M[R]_(m, n)) (u : 'cV[R]_m) (v : 'cV[R]_n) :
  dot u (M *m v) = dot (M^T *m u) v.
Proof. by rewrite !dot_mulmx trmx_mul trmxK mulmxA. Qed.

End DotTheory.

(** ** Scalar matrices *)

Section ScalarMatrices.
Variable R : rcfType.

Lemma symmetric_scalar n (a : R) : symmetric (a%:M : 'M[R]_n).
Proof. exact: tr_scalar_mx. Qed.

Lemma psd_scalar n (a : R) : 0 <= a -> psd (a%:M : 'M[R]_n).
Proof. by move=> a0 v; rewrite mul_scalar_mx dotZr mulr_ge0 // dot_ge0. Qed.

Lemma unitmx_scalar n (a : R) : a != 0 -> (a%:M : 'M[R]_n) \in unitmx.
Proof. by move=> a0; rewrite unitmxE det_scalar unitfE expf_neq0. Qed.

End ScalarMatrices.

(** ** The whole-vector threshold *)

Section SoftThresholdTheory.

Variable R : rcfType.

Lemma bigmax0_attained (I : finType) (f : I -> R) :
  let M := \big[Num.max/0]_i f i in M = 0 \/ exists j, M = f j.
Proof.
move=> /=; elim/big_rec: _ => [|i acc _ [->|[j ->]]]; first by left.
- by rewrite maxEle; case: ifP => _; [left | right; exists i].
- by rewrite maxEle; case: ifP => _; right; [exists j | exists i].
Qed.

Lemma soft_thresholdE n (x : 'cV[R]_n) t i :
  soft_threshold x t i 0
  = Num.sg (x i 0) * \big[Num.max/0]_(j < n) (`|x j 0| - t).
Proof. by rewrite /soft_threshold mxE. Qed.

Lemma soft_threshold_abs n (x : 'cV[R]_n) t i :
  `|soft_threshold x t i 0| =
  if x i 0 == 0 then 0 else \big[Num.max/0]_(j < n) (`|x j 0| - t).
Proof.
rewrite soft_thresholdE normrM normr_sg.
have M0 : 0 <= \big[Num.max/0]_(j < n) (`|x j 0| - t) by exact: bigmax_ge_id.
by rewrite (ger0_norm M0); case: eqP => _; rewrite ?mul0r ?mul1r.
Qed.

Lemma soft_threshold_length_one (x : 'cV[R]_1) t :
  soft_threshold x t = soft_threshold_elementwise x t.
Proof.
apply/colP => i; rewrite soft_thresholdE !mxE big_ord_recl big_ord0.
by rewrite (ord1 i).
Qed.

Lemma bigmax_vec2 (a b t : R) :
  \big[Num.max/0]_(j < 2) (`|vec2 a b j 0| - t)
  = Num.max (`|a| - t) (Num.max (`|b| - t) 0).
Proof. by rewrite !big_ord_recl big_ord0 !mxE. Qed.

Lemma soft_threshold_differs :
  soft_threshold (vec2 1 3) 1 != soft_threshold_elementwise (vec2 1 3 : 'cV[R]_2) 1.
Proof.
apply/eqP => /colP /(_ 0); rewrite soft_thresholdE bigmax_vec2 !mxE /=.
rewrite normr1 !normr_nat sgr1 !mul1r subrr maxxx.
have -> : Num.max (3 - 1) 0 = 2 :> R by rewrite maxEle; case: ifP => //; lra.
have -> : Num.max 0 2 = 2 :> R by rewrite maxEle; case: ifP => //; lra.
by move=> h; lra.
Qed.

End SoftThresholdTheory.

(** ** Arrays with two components *)

Section Vec2Theory.
Variable R : rcfType.

Lemma vec2E0 (a b : R) : vec2 a b 0 0 = a.
Proof. by rewrite mxE. Qed.

Lemma vec2E1 (a b : R) : vec2 a b (lift ord0 ord0) 0 = b.
Proof. by rewrite mxE. Qed.

Lemma vec2P (u v : 'cV[R]_2) :
  u 0 0 = v 0 0 -> u (lift ord0 ord0) 0 = v (lift ord0 ord0) 0 -> u = v.
Proof.
move=> e0 e1; apply/colP => i.
by case: (unliftP ord0 i) => [j|] ->; rewrite ?(ord1 j).
Qed.

Lemma vec2_eta (u : 'cV[R]_2) : u = vec2 (u 0 0) (u (lift ord0 ord0) 0).
Proof. by apply: vec2P; rewrite mxE. Qed.

Lemma vec2D (a b c d : R) : vec2 a b + vec2 c d = vec2 (a + c) (b + d).
Proof. by apply: vec2P; rewrite !mxE. Qed.

Lemma vec2N (a b : R) : - vec2 a b = vec2 (- a) (- b).
Proof. by apply: vec2P; rewrite !mxE. Qed.

Lemma vec2Z (k a b : R) : k *: vec2 a b = vec2 (k * a) (k * b).
Proof. by apply: vec2P; rewrite !mxE. Qed.

Lemma const_vec2 (a : R) : const_mx a = vec2 a a.
Proof. by apply: vec2P; rewrite !mxE. Qed.

Lemma vec2_inj (a b c d : R) : vec2 a b = vec2 c d -> a = c /\ b = d.
Proof.
by move=> e; split; [have := congr1 (fun v : 'cV_2 => v 0 0) e
                    | have := congr1 (fun v : 'cV_2 => v (lift ord0 ord0) 0) e];
  rewrite !mxE.
Qed.

(** The whole-vector threshold on a two-component array with positive
    entries, the first being the larger, at threshold [0]. *)
Lemma soft_threshold_vec2_pos (a b : R) :
  0 < b -> b <= a -> soft_threshold (vec2 a b) 0 = vec2 a a.
Proof.
move=> b0 le_ba; have a0 : 0 < a := lt_le_trans b0 le_ba.
have M : \big[Num.max/0]_(j < 2) (`|vec2 a b j 0| - 0) = a.
  rewrite bigmax_vec2 !subr0 !gtr0_norm // (max_l (ltW b0)).
  by rewrite (max_l le_ba).
by apply: vec2P; rewrite soft_thresholdE M !mxE /= gtr0_sg // mul1r.
Qed.

End Vec2Theory.

(** ** Covariance updates of the Kalman filter *)

Section KalmanTheory.
Variable R : rcfType.

Lemma psd_congruence n (P X : 'M[R]_n) : psd P -> psd (X *m P *m X^T).
Proof. by move=> hP v; rewrite -!mulmxA dot_mulmxl; apply: hP. Qed.

Lemma psdD n (P Q : 'M[R]_n) : psd P -> psd Q -> psd (P + Q).
Proof. by move=> hP hQ v; rewrite mulmxDl dotDr addr_ge0. Qed.

Lemma symmetric_congruence n (P X : 'M[R]_n) :
  symmetric P -> symmetric (X *m P *m X^T).
Proof. by rewrite /symmetric => hP; rewrite !trmx_mul trmxK hP mulmxA. Qed.

Lemma update_prior_covariance_psd n (cov_m cov_v A L : 'M[R]_n) :
  symmetric cov_m -> psd cov_m -> symmetric cov_v -> psd cov_v ->
  symmetric (update_prior_covariance cov_m cov_v A L)
  /\ psd (update_prior_covariance cov_m cov_v A L).
Proof.
move=> sm pm sv pv; rewrite /update_prior_covariance; split.
  by rewrite /symmetric linearD /= !symmetric_congruence.
by apply: psdD; apply: psd_congruence.
Qed.

Lemma k_kE n (cov_p cov_w B J K : 'M[R]_n) :
  k_k cov_p cov_w B J = Some K ->
  let S := B *m (cov_p *m B^T) + J *m (cov_w *m J^T) in
  S \in unitmx /\ K = cov_p *m B^T *m invmx S.
Proof.
rewrite /k_k /inv; case: ifP => // unitS [<-]; by split.
Qed.

(** The posterior covariance in Joseph's form. *)
Lemma joseph_form n (cov_p cov_w B J K : 'M[R]_n) :
  k_k cov_p cov_w B J = Some K ->
  update_posterior_covariance K B cov_p
  = (1%:M - K *m B) *m cov_p *m (1%:M - K *m B)^T
    + K *m (J *m cov_w *m J^T) *m K^T.
Proof.
move=> /k_kE [/=]; set S := _ + _ => unitS defK.
rewrite /update_posterior_covariance.
have KS : K *m S = cov_p *m B^T by rewrite defK mulmxKV.
have -> : J *m cov_w *m J^T = S - B *m cov_p *m B^T.
  by rewrite /S !mulmxA addrC addKr.
rewrite [in RHS]linearB /= trmx1 trmx_mul mulmxBr mulmx1.
rewrite (mulmxBr K) mulmxBl KS !mulmxBl !mul1mx !mulmxA.
by rewrite subrK.
Qed.

Lemma update_posterior_covariance_psd n (cov_p cov_w B J K : 'M[R]_n) :
  symmetric cov_p -> psd cov_p -> symmetric cov_w -> psd cov_w ->
  k_k cov_p cov_w B J = Some K ->
  symmetric (update_posterior_covariance K B cov_p)
  /\ psd (update_posterior_covariance K B cov_p).
Proof.
move=> sp pp sw pw defK; rewrite (joseph_form defK); split.
  rewrite /symmetric linearD /= !symmetric_congruence //.
  exact: symmetric_congruence.
by apply: psdD; apply: psd_congruence => //; apply: psd_congruence.
Qed.

End KalmanTheory.

(** ** Loops and the conjugate-gradient iteration *)

Section LoopTheory.
Variable S : Type.

Lemma for_loopE count (body : S -> S) ran s :
  for_loop count body ran s = Finished (ran + count) (iter count body s).
Proof.
elim: count ran s => [|c IH] ran s /=; first by rewrite addn0.
by rewrite IH addSnnS -iterSr.
Qed.

Lemma while_loop_exit (cond : S -> bool) (body : S -> option S) (step : S -> S)
    k fuel ran s :
  (forall j, (j < k)%N ->
     cond (iter j step s) /\ body (iter j step s) = Some (step (iter j step s))) ->
  ~~ cond (iter k step s) -> (k <= fuel)%N ->
  while_loop fuel cond body ran s = Finished (ran + k) (iter k step s).
Proof.
elim: k fuel ran s => [|k IH] fuel ran s Hk.
  by rewrite addn0 /= => /negbTE; case: fuel => [|f] /= ->.
case: fuel => [|f] // exit; rewrite ltnS => le_kf.
have [/= c0 b0] := Hk 0%N (ltn0Sn k).
rewrite /= c0 b0 addnS -addSn -iterS iterSr; apply: IH => //.
  by move=> j lt_jk; rewrite -iterSr; apply: Hk.
by rewrite -iterSr.
Qed.

Lemma for_each_inv (I : Type) (P : S -> Prop) (items : seq I)
    (body : I -> S -> option S) ran s k s' :
  (forall i t t', P t -> body i t = Some t' -> P t') -> P s ->
  for_each items body ran s = Finished k s' -> P s' /\ k = (ran + size items)%N.
Proof.
move=> step; elim: items ran s => [|i items IH] ran s Ps /=.
  by case=> <- <-; rewrite addn0.
case eb : (body i s) => [t|] // /(IH _ _ (step _ _ _ Ps eb)) [Ps' ->].
by rewrite addSnnS.
Qed.

Lemma for_each_turns (I : Type) (items : seq I) (body : I -> S -> option S)
    ran s k s' :
  for_each items body ran s = Finished k s' -> k = (ran + size items)%N.
Proof.
by case/(for_each_inv (P := fun=> True)).
Qed.

Lemma for_each_total (I : Type) (P : S -> Prop) (items : seq I)
    (body : I -> S -> option S) ran s :
  (forall i t t', P t -> body i t = Some t' -> P t') ->
  (forall i t, P t -> isSome (body i t)) -> P s ->
  exists s', for_each items body ran s = Finished (ran + size items) s'.
Proof.
move=> step total; elim: items ran s => [|i items IH] ran s Ps /=.
  by exists s; rewrite addn0.
case eb : (body i s) (total i s Ps) => [t|] // _.
by rewrite -addSnnS; apply: IH; apply: step eb.
Qed.

Lemma for_each_foldl (I : Type) (items : seq I) (body : I -> S -> option S)
    ran s :
  for_each items body ran s
  = if foldl (fun acc i => obind (body i) acc) (Some s) items is Some s'
    then Finished (ran + size items) s' else Failed.
Proof.
elim: items ran s => [|i items IH] ran s /=; first by rewrite addn0.
case: (body i s) => [t|] /=; first by rewrite IH addSnnS.
suff -> : foldl (fun acc i => obind (body i) acc) None items = None by [].
by elim: items {IH}.
Qed.

Lemma while_loop_ran (cond : S -> bool) (body : S -> option S) fuel ran s k s' :
  while_loop fuel cond body ran s = Finished k s' ->
  (ran + cond s <= k)%N.
Proof.
have mono f r t : while_loop f cond body r t = Finished k s' -> (r <= k)%N.
  elim: f r t => [|f IH] r t /=; case: ifP => _ //; try by case=> <-.
  by case: (body t) => [t'|] // /IH /ltnW.
case: fuel => [|f] /=; case: ifP => _ //; try by case=> <-; rewrite addn0.
by case: (body s) => [t|] // /mono; rewrite addn1.
Qed.

End LoopTheory.

Section ConjugateGradientTheory.
Variable R : rcfType.
Variable n : nat.
Variable A : 'M[R]_n.

Lemma cg_bodyE s :
  dot (rk s) (rk s) != 0 -> dot (A^T *m pk s) (pk s) != 0 ->
  cg_body A s = Some (cg_step A s).
Proof.
by rewrite /cg_body /divide => /negbTE r0 /negbTE -> /=; rewrite r0.
Qed.

Lemma cg_body_some s s' : cg_body A s = Some s' -> s' = cg_step A s.
Proof.
rewrite /cg_body /divide; case: ifP => // _ /=; case: ifP => // _ [<-].
by [].
Qed.

Lemma cg_continue_neq0 (s : cg_state R n) : cg_continue s -> rk s != 0.
Proof.
case/existsP => i lt; apply/eqP => r0; move: lt; rewrite r0 mxE => lt.
have tol0 : (0 : R) < tolerance R.
  by rewrite /tolerance invr_gt0 exprn_gt0 // ltr0n.
by have := lt_trans tol0 lt; rewrite ltxx.
Qed.

Lemma cg_body_residual b s s' :
  rk s = A *m xk s - b -> cg_body A s = Some s' -> rk s' = A *m xk s' - b.
Proof.
move=> inv /cg_body_some ->; rewrite /cg_step /= inv mulmxDr -scalemxAr.
by rewrite addrAC.
Qed.


(** *** Conjugacy of the search directions *)

Hypothesis symA : A^T = A.
Hypothesis pdA : forall v : 'cV[R]_n, v != 0 -> 0 < dot v (A *m v).

Variable s0 : cg_state R n.
Hypothesis start : pk s0 = - rk s0.

Let r : nat -> 'cV[R]_n := cg_residual A s0.
Let p : nat -> 'cV[R]_n := cg_direction A s0.
Let rho (k : nat) : R := dot (r k) (r k).
Let del (k : nat) : R := dot (p k) (A *m p k).

Lemma cg_rS k : r k.+1 = r k + (rho k / del k) *: (A *m p k).
Proof.
by rewrite /r /rho /del /p /cg_residual /cg_direction iterS /= dot_mulmxl.
Qed.

Lemma cg_pS k : p k.+1 = - r k.+1 + (rho k.+1 / rho k) *: p k.
Proof. by rewrite /p /r /rho /cg_residual /cg_direction !iterS. Qed.

Lemma cg_dotA u v : dot u (A *m v) = dot v (A *m u).
Proof. by rewrite dot_mulmxl symA dotC. Qed.

Lemma cg_del_gt0 k j :
  cg_inv A s0 k -> (j <= k)%N -> r j != 0 -> 0 < del j.
Proof.
rewrite /cg_inv -/r -/p => -[_ _ _ inv4] le_jk rj0; apply: pdA; apply/eqP => pj0.
have := inv4 j le_jk; rewrite pj0 dot0l => /esym/eqP.
by rewrite oppr_eq0 dot_eq0 (negbTE rj0).
Qed.

Lemma cg_rAp k i :
  cg_inv A s0 k -> (i <= k)%N ->
  dot (r i) (A *m p k) = if i == k then - del k else 0.
Proof.
rewrite /cg_inv -/r -/p => -[_ inv2 _ _]; case: i => [|i] le_ik.
  have -> : r 0 = - p 0.
    by rewrite /r /p /cg_residual /cg_direction /= start opprK.
  rewrite dotNl; case: k inv2 le_ik => [|k] inv2 _ //=.
  by rewrite inv2 ?oppr0.
have -> : r i.+1 = - p i.+1 + (rho i.+1 / rho i) *: p i.
  by rewrite cg_pS opprD opprK subrK.
rewrite dotDl dotNl dotZl (inv2 i k) // mulr0 addr0.
case: eqP => [->//|/eqP ne_ik].
by rewrite inv2 ?oppr0 // ltn_neqAle ne_ik.
Qed.

Lemma cg_inv_step k :
  (forall j, (j <= k)%N -> r j != 0) -> cg_inv A s0 k -> cg_inv A s0 k.+1.
Proof.
move=> nz inv; have [inv1 inv2 inv3 inv4] := inv.
rewrite -/r -/p in inv1 inv2 inv3 inv4.
have rho0 j : (j <= k)%N -> rho j != 0 by move=> le; rewrite /rho dot_eq0 nz.
have del0 j : (j <= k)%N -> del j != 0.
  by move=> le; apply: lt0r_neq0; exact: (cg_del_gt0 inv le (nz _ le)).
have new1 i : (i <= k)%N -> dot (r i) (r k.+1) = 0.
  move=> le_ik; rewrite cg_rS dotDr dotZr cg_rAp //.
  case: eqP le_ik => [-> _|/eqP ne_ik le_ik].
    by rewrite -/(rho k); have := del0 k (leqnn k) => d0; field.
  by rewrite inv1 ?mulr0 ?addr0 // ltn_neqAle ne_ik.
have new3 i : (i <= k)%N -> dot (p i) (r k.+1) = 0.
  move=> le_ik; rewrite cg_rS dotDr dotZr.
  move: le_ik; rewrite leq_eqVlt => /orP [/eqP ->|lt_ik].
    by rewrite inv4 // -/(del k) -/(rho k); have := del0 k (leqnn k) => d0; field.
  by rewrite inv3 // inv2 // mulr0 addr0.
have new4 : dot (p k.+1) (r k.+1) = - rho k.+1.
  by rewrite cg_pS dotDl dotNl dotZl new3 // mulr0 addr0.
have new2 i : (i <= k)%N -> dot (p i) (A *m p k.+1) = 0.
  move=> le_ik; rewrite cg_dotA cg_pS dotDl dotNl dotZl.
  rewrite [dot (r k.+1) _]cg_dotA [dot (p k) _]cg_dotA.
  have step : (rho i / del i) * dot (p i) (A *m r k.+1)
              = dot (r i.+1) (r k.+1) - dot (r i) (r k.+1).
    by rewrite cg_dotA -dotZr [in RHS](cg_rS i) dotDl addrC addKr dotC.
  have a0 : rho i / del i != 0 by rewrite mulf_neq0 ?invr_eq0 ?rho0 ?del0.
  have -> : dot (p i) (A *m r k.+1)
            = (rho i / del i)^-1 * (dot (r i.+1) (r k.+1) - dot (r i) (r k.+1)).
    by rewrite -step mulKf.
  rewrite (new1 i le_ik) subr0.
  move: le_ik; rewrite leq_eqVlt => /orP [/eqP ->|lt_ik].
    rewrite -/(rho k.+1) -/(del k).
    by have := del0 k (leqnn k) => d0; have := rho0 k (leqnn k) => r0; field.
  by rewrite (new1 i.+1 lt_ik) mulr0 oppr0 inv2 // mulr0 addr0.
rewrite /cg_inv -/r -/p; split.
- move=> i j lt_ij; rewrite leq_eqVlt => /orP [/eqP ej|]; last exact: inv1.
  by rewrite ej new1 // -ltnS -ej.
- move=> i j lt_ij; rewrite leq_eqVlt => /orP [/eqP ej|]; last exact: inv2.
  by rewrite ej new2 // -ltnS -ej.
- move=> i j lt_ij; rewrite leq_eqVlt => /orP [/eqP ej|]; last exact: inv3.
  by rewrite ej new3 // -ltnS -ej.
- by move=> j; rewrite leq_eqVlt => /orP [/eqP ->|]; [|exact: inv4].
Qed.

Lemma cg_inv_holds k : (forall j, (j < k)%N -> r j != 0) -> cg_inv A s0 k.
Proof.
elim: k => [|k IH] nz.
  rewrite /cg_inv -/r -/p; split=> [i j|i j|i j|j]; rewrite ?leqn0 => lt; try by move/eqP=> j0; rewrite j0 in lt.
  by move: lt => /eqP ->; rewrite /p /r /rho /cg_residual /cg_direction /= start dotNl.
apply: cg_inv_step; first by move=> j le; apply: nz.
by apply: IH => j lt; apply: nz; apply: ltnW.
Qed.

End ConjugateGradientTheory.

Section Termination.
Variable R : rcfType.

Lemma orthogonal_family_has_zero n (f : nat -> 'cV[R]_n) :
  (forall i j, (i < j)%N -> (j <= n)%N -> dot (f i) (f j) = 0) ->
  exists2 j, (j <= n)%N & f j = 0.
Proof.
move=> orth.
case: (boolP [exists j : 'I_n.+1, f j == 0]) => [/existsP [j /eqP fj]|].
  by exists j => //; rewrite -ltnS.
rewrite negb_exists => /forallP nz.
pose M : 'M[R]_(n.+1, n) := \matrix_(i, c) f i c 0.
pose B : 'M[R]_(n, n.+1) := \matrix_(c, j) (f j c 0 / dot (f j) (f j)).
have MB : M *m B = 1%:M.
  apply/matrixP => i j.
  rewrite mxE [RHS]mxE.
  have -> : \sum_j0 M i j0 * B j0 j = dot (f i) (f j) / dot (f j) (f j).
    rewrite /dot mulr_suml; apply: eq_bigr => c _.
    by rewrite /M /B 2!mxE mulrA.
  case: (ltngtP i j) => [lt_ij|lt_ji|/val_inj ->].
  - have le_j : (j <= n)%N by rewrite -ltnS.
    by rewrite (orth _ _ lt_ij le_j) mul0r -val_eqE (ltn_eqF lt_ij).
  - have le_i : (i <= n)%N by rewrite -ltnS.
    by rewrite dotC (orth _ _ lt_ji le_i) mul0r -val_eqE (gtn_eqF lt_ji).
  - by rewrite eqxx divff // dot_eq0.
have : row_free M by apply/row_freeP; exists B.
by rewrite /row_free => /eqP rankM; have := rank_leq_col M; rewrite rankM ltnn.
Qed.

Lemma pd_unitmx n (M : 'M[R]_n) :
  (forall v : 'cV[R]_n, v != 0 -> 0 < dot v (M *m v)) -> M \in unitmx.
Proof.
move=> pdM; rewrite -unitmx_tr -row_free_unit -kermx_eq0.
apply/rowV0P => u /sub_kermxP uM.
apply/eqP; rewrite -trmx_eq0; apply/negPn/negP => /pdM.
have -> : M *m u^T = 0 by rewrite -[M]trmxK -trmx_mul uM trmx0.
by rewrite dot0r ltxx.
Qed.

Lemma cg_terminates n (A : 'M[R]_n) (b x0 : 'cV[R]_n) :
  spd A ->
  exists k s, (k <= n)%N /\
    forall fuel, (k <= fuel)%N -> conjugate_gradient fuel A b x0 = Finished k s.
Proof.
case=> symA pdA; rewrite /conjugate_gradient.
set s0 := CgState _ _ _; pose sq j := iter j (cg_step A) s0.
have start : pk s0 = - rk s0 by [].
have ex : exists j, (j <= n)%N && ~~ cg_continue (sq j).
  case: (boolP [exists j : 'I_n.+1, ~~ cg_continue (sq j)]).
    by case/existsP => j exit; exists j; rewrite -ltnS ltn_ord.
  rewrite negb_exists => /forallP go.
  have nz j : (j <= n)%N -> rk (sq j) != 0.
    rewrite -ltnS => lt; apply: cg_continue_neq0.
    exact: (negPn (go (Ordinal lt))).
  have [inv1 _ _ _] : cg_inv A s0 n.
    by apply: cg_inv_holds => // j lt; apply: nz; apply: ltnW.
  have [j le_jn rj0] := orthogonal_family_has_zero inv1.
  by move: rj0 (nz j le_jn); rewrite /cg_residual -/(sq j) => ->; rewrite eqxx.
case: (ex_minnP ex) => k /andP [le_kn exit] min.
have go j : (j < k)%N -> cg_continue (sq j).
  move=> lt_jk; case: (boolP (cg_continue (sq j))) => // exit_j.
  have /min : (j <= n)%N && ~~ cg_continue (sq j).
    by rewrite exit_j andbT (leq_trans (ltnW lt_jk)).
  by rewrite leqNgt lt_jk.
have nz j : (j < k)%N -> rk (sq j) != 0.
  by move=> lt; apply: cg_continue_neq0; apply: go.
have inv : cg_inv A s0 k by apply: cg_inv_holds.
exists k, (sq k); split=> // fuel le_kf.
rewrite -[k in Finished k]add0n; apply: while_loop_exit => // j lt_jk.
split; first exact: go.
apply: cg_bodyE; first by rewrite dot_eq0 nz.
rewrite -dot_mulmxl; apply: lt0r_neq0.
exact: (cg_del_gt0 pdA inv (ltnW lt_jk) (nz j lt_jk)).
Qed.

End Termination.

Section LoopInvariant.
Variable S : Type.

Lemma while_loop_finished (cond : S -> bool) (body : S -> option S)
    (P : S -> Prop) fuel ran s k s' :
  (forall t t', P t -> body t = Some t' -> P t') -> P s ->
  while_loop fuel cond body ran s = Finished k s' -> P s' /\ ~~ cond s'.
Proof.
move=> step; elim: fuel ran s => [|f IH] ran s Ps /=.
  by case: ifP => // /negbT exit [_ <-].
case: ifP => [_|/negbT exit [_ <-] //].
by case eb: (body s) => [t|] //; apply: IH; apply: step eb.
Qed.

End LoopInvariant.

Section Results.
Variable R : rcfType.

Lemma admm_gram_unit m q (X : 'M[R]_(m, q)) (rho : R) :
  0 < rho -> X^T *m X + rho *: 1%:M \in unitmx.
Proof.
move=> rho0; apply: pd_unitmx => v v0.
rewrite mulmxDl dotDr -mulmxA dot_mulmxl trmxK -scalemxAl mul1mx dotZr.
apply: ltr_wpDl; first exact: dot_ge0.
by rewrite mulr_gt0 // lt0r dot_eq0 v0 dot_ge0.
Qed.

Lemma admm_finished m q (X : 'M[R]_(m, q)) (y : 'cV[R]_m) (lambda rho : R) :
  0 < rho ->
  admm X y lambda rho
  = Finished 100
      (iter 100 (admm_update (invmx (X^T *m X + rho *: 1%:M)) (X^T *m y) lambda rho)
         (AdmmState (const_mx 1) (const_mx 1) (const_mx 1))).
Proof.
move=> rho0; rewrite /admm /solve (admm_gram_unit _ rho0) for_loopE add0n.
reflexivity.
Qed.

Lemma cg_exit_condition fuel n (A : 'M[R]_n) (b x0 : 'cV[R]_n) k s :
  conjugate_gradient fuel A b x0 = Finished k s ->
  rk s = A *m xk s - b /\ forall i, rk s i 0 <= tolerance R.
Proof.
rewrite /conjugate_gradient.
move/(@while_loop_finished _ _ _ (fun s => rk s = A *m xk s - b)).
case=> [t t' inv body|//|inv exit]; first exact: cg_body_residual inv body.
split=> // i; rewrite leNgt; apply/negP => lt.
by case/existsP: exit; exists i.
Qed.

Lemma spd1 n : spd (1%:M : 'M[R]_n).
Proof.
split=> [|v v0]; first exact: symmetric_scalar.
by rewrite mul1mx lt0r dot_eq0 v0 dot_ge0.
Qed.

Lemma tolerance_gt0 : 0 < tolerance R.
Proof. by rewrite /tolerance invr_gt0 exprn_gt0 // ltr0n. Qed.

Lemma tolerance_lt1 : tolerance R < 1.
Proof. by rewrite /tolerance invf_lt1 ?exprn_gt0 ?ltr0n // exprn_egt1 // ltr1n. Qed.

Lemma dot1 (u v : 'cV[R]_1) : dot u v = u 0 0 * v 0 0.
Proof. by rewrite /dot big_ord_recl big_ord0 addr0. Qed.

End Results.

(** ** The ADMM loop on a 2 x 2 example *)

Section AdmmExample.
Variable R : rcfType.

Let Xin : 'M[R]_2 := (2^-1)%:M.
Let Xty : 'cV[R]_2 := vec2 2 0.

Lemma admm_update_vec2 (x0 : 'cV[R]_2) (z1 z2 u1 u2 x1 x2 : R) :
  x1 = 2^-1 * (2 + (z1 - u1)) -> x2 = 2^-1 * (0 + (z2 - u2)) ->
  0 < x2 + u2 -> x2 + u2 <= x1 + u1 ->
  admm_update Xin Xty 0 1 (AdmmState x0 (vec2 z1 z2) (vec2 u1 u2))
  = AdmmState (vec2 x1 x2) (vec2 (x1 + u1) (x1 + u1))
      (vec2 (u1 + x1 - (x1 + u1)) (u2 + x2 - (x1 + u1))).
Proof.
move=> -> -> pos le; rewrite /admm_update /= /Xin /Xty mul_scalar_mx scale1r.
rewrite vec2N !vec2D vec2Z vec2D mul0r soft_threshold_vec2_pos //.
by rewrite vec2N !vec2D.
Qed.

Let init : admm_state R 2 := AdmmState (const_mx 1) (const_mx 1) (const_mx 1).

Lemma admm_example_iter k :
  iter k.+2 (admm_update Xin Xty 0 1) init
  = AdmmState (vec2 2 (2 - 2 ^- k.+1)) (vec2 2 2) (vec2 0 (- (2 - 2 ^- k.+1))).
Proof.
elim: k => [|k IH].
  rewrite /init !const_vec2 /=.
  rewrite (admm_update_vec2 _ erefl erefl); [lra|lra|].
  rewrite (admm_update_vec2 _ erefl erefl); [lra|lra|].
  by congr AdmmState; apply: vec2P; rewrite !mxE /=; field.
have a0 : 0 < (2 : R) ^- k.+1 by rewrite invr_gt0 exprn_gt0 // ltr0n.
have a1 : (2 : R) ^- k.+1 <= 1.
  by rewrite invf_le1 ?exprn_gt0 ?ltr0n // exprn_ege1 // ler1n.
have aS : (2 : R) ^- k.+2 = 2^-1 * 2 ^- k.+1 by rewrite exprS invfM.
rewrite iterS IH aS; move: (2 ^- k.+1) a0 a1 => a a0 a1.
rewrite (admm_update_vec2 _ erefl erefl); [lra|lra|].
by congr AdmmState; apply: vec2P; rewrite !mxE /=; field.
Qed.

End AdmmExample.

(** ** Householder reflectors *)

Section HouseholderTheory.
Variable R : rcfType.

Lemma dot_scalar n (u v : 'cV[R]_n) : u^T *m v = (dot u v)%:M.
Proof.
apply/matrixP => i j; rewrite !mxE (ord1 i) (ord1 j) eqxx mulr1n.
by apply: eq_bigr => t _; rewrite mxE.
Qed.

Lemma norm_ge0 n (a : 'cV[R]_n) : 0 <= norm a.
Proof. exact: sqrtr_ge0. Qed.

Lemma norm_sq n (a : 'cV[R]_n) : norm a ^+ 2 = dot a a.
Proof. by rewrite /norm sqr_sqrtr // dot_ge0. Qed.

Lemma norm_gt0 n (a : 'cV[R]_n) : a != 0 -> 0 < norm a.
Proof. by move=> a0; rewrite /norm sqrtr_gt0 lt0r dot_eq0 a0 dot_ge0. Qed.

Lemma copysign_sq (x y : R) : copysign x y ^+ 2 = x ^+ 2.
Proof. by rewrite /copysign; case: ifP => _; rewrite ?sqrrN real_normK ?num_real. Qed.

(** The divisor in [House] vanishes on the zero array only. *)
Lemma House_divisor k (a : 'cV[R]_k.+1) :
  a != 0 -> a 0 0 + copysign (norm a) (a 0 0) != 0.
Proof.
move=> /norm_gt0 n0; rewrite /copysign (ger0_norm (ltW n0)).
case: leP => a00; first by apply: lt0r_neq0; lra.
by apply: ltr0_neq0; lra.
Qed.

(** A reflector [1 - (2 / v.v) v v^T] is symmetric and its own inverse. *)
Lemma reflector_sym n (v : 'cV[R]_n) :
  (1%:M - (2 / dot v v) *: (v *m v^T))^T = 1%:M - (2 / dot v v) *: (v *m v^T).
Proof. by rewrite linearB /= tr_scalar_mx linearZ /= trmx_mul trmxK. Qed.

Lemma reflector_involutive n (v : 'cV[R]_n) :
  v != 0 ->
  (1%:M - (2 / dot v v) *: (v *m v^T)) *m (1%:M - (2 / dot v v) *: (v *m v^T))
  = 1%:M.
Proof.
move=> v0; have d0 : dot v v != 0 by rewrite dot_eq0.
set c := 2 / dot v v; set V := v *m v^T.
have VV : V *m V = dot v v *: V.
  by rewrite /V mulmxA -(mulmxA v) dot_scalar mul_mx_scalar -scalemxAl.
rewrite mulmxBl mul1mx mulmxBr mulmx1 -scalemxAl -scalemxAr VV !scalerA.
have -> : c * c * dot v v = c + c by rewrite /c; field.
have -> : c *: V - (c + c) *: V = - (c *: V).
  by rewrite scalerDl opprD addrA subrr sub0r.
by rewrite opprK subrK.
Qed.

Lemma reflector_apply n (v a : 'cV[R]_n) :
  (1%:M - (2 / dot v v) *: (v *m v^T)) *m a = a - (2 / dot v v * dot v a) *: v.
Proof.
by rewrite mulmxBl mul1mx -scalemxAl -mulmxA dot_scalar mul_mx_scalar scalerA.
Qed.


Lemma dot_delta n (i : 'I_n) (a : 'cV[R]_n) : dot (delta_mx i 0) a = a i 0.
Proof.
rewrite /dot (bigD1 i) //= mxE !eqxx mul1r big1 ?addr0 // => j ne_ji.
by rewrite mxE (negbTE ne_ji) mul0r.
Qed.

Lemma HouseP k (a : 'cV[R]_k.+1) :
  a != 0 ->
  exists Hi, [/\ House a = Some Hi, Hi^T = Hi, Hi *m Hi = 1%:M
                & forall i, i != 0 -> (Hi *m a) i 0 = 0].
Proof.
move=> a0; have d0 := House_divisor a0.
set s := copysign (norm a) (a 0 0) in d0; set d := a 0 0 + s in d0.
pose v : 'cV[R]_k.+1 := \col_i (if i == 0 then 1 else a i 0 / d).
exists (1%:M - (2 / dot v v) *: (v *m v^T)).
have vE : v = d^-1 *: (a + s *: delta_mx 0 0).
  apply/colP => i; rewrite 5!mxE; case: eqP => [->|_] /=.
    by rewrite mulr1 mulVf.
  by rewrite mulr0 addr0 mulrC.
have v0 : v != 0.
  apply/eqP => /colP /(_ 0); rewrite 2!mxE eqxx => /eqP.
  by rewrite oner_eq0.
have ss : s ^+ 2 = dot a a by rewrite /s copysign_sq norm_sq.
have wa : dot (a + s *: delta_mx 0 0) a = dot a a + s * a 0 0.
  by rewrite dotDl dotZl dot_delta.
have ww : dot (a + s *: delta_mx 0 0) (a + s *: delta_mx 0 0)
          = 2 * (dot a a + s * a 0 0).
  rewrite dotDr wa dotZr dotDl dotZl dot_delta (dotC a (delta_mx 0 0)) dot_delta.
  by rewrite mxE !eqxx /= -ss; ring.
have w0 : dot a a + s * a 0 0 != 0.
  have : dot v v != 0 by rewrite dot_eq0.
  rewrite vE dotZl dotZr ww !mulf_eq0 !negb_or => /and3P [_ _ /andP [_]].
  by [].
split.
- by rewrite /House -/s -/d (negbTE d0).
- exact: reflector_sym.
- exact: reflector_involutive.
- move=> i i0; rewrite reflector_apply 3!mxE.
  rewrite [v i 0]mxE (negbTE i0) vE !dotZl dotZr ww wa.
  by field; rewrite d0 w0.
Qed.

End HouseholderTheory.

(** ** The loop of [qr] *)

Section QRTheory.
Variable R : rcfType.

Lemma row_full_factor m n (A0 A : 'M[R]_(m, n)) (Q : 'M[R]_m) :
  row_full A0 -> Q *m A = A0 -> exists L : 'M[R]_(n, m), L *m A = 1%:M.
Proof.
by move=> /row_fullP [L LA] QA; exists (L *m Q); rewrite -mulmxA QA.
Qed.

Lemma mul_mx_pid m n r (X : 'M[R]_(m, n)) (i : 'I_m) (j : 'I_n) :
  (X *m pid_mx r) i j = if (j < r)%N then X i j else 0.
Proof.
rewrite mxE (bigD1 j) //= mxE eqxx /= big1 ?addr0.
  by move=> t; rewrite -val_eqE /= mxE => /negbTE ->; rewrite mulr0.
by case: (j < r)%N; rewrite ?mulr1 ?mulr0.
Qed.

Section Turn.
Variables (i k n : nat).
Variables (A0 A : 'M[R]_(i + k.+1, n)) (Q : 'M[R]_(i + k.+1)) (c : 'I_n).
Hypothesis ci : val c = i.
Hypothesis inv : qr_inv A0 i Q A.

Lemma pivot_nonzero : row_full A0 -> dsubmx (col c A) != 0.
Proof.
have [orth QA tri] := inv => full; apply/eqP => a0.
have [L LA] := row_full_factor full QA.
pose S : 'M[R]_n := pid_mx i.+1.
have dS : dsubmx A *m S = 0.
  apply/matrixP => r j; rewrite mul_mx_pid [RHS]mxE ltnS leq_eqVlt.
  case: eqP => [ji|_] /=.
    have -> : j = c by apply: val_inj; rewrite ci.
    by have /colP /(_ r) := a0; rewrite !mxE.
  by case: ifP => // lt_ji; rewrite mxE tri //= (leq_trans lt_ji) // leq_addr.
have AS : A *m S = col_mx 1%:M 0 *m (usubmx A *m S).
  by rewrite mul_col_mx mul1mx mul0mx -dS -mul_col_mx vsubmxK.
have le1 : (\rank (A *m S) <= i)%N.
  by rewrite AS (leq_trans (mxrankM_maxr _ _)) // rank_leq_row.
have le2 : (\rank S <= \rank (A *m S))%N.
  by rewrite -{1}[S]mul1mx -LA -mulmxA mxrankM_maxr.
have lt_in : (i < n)%N by have := ltn_ord c; rewrite ci.
by move: (leq_trans le2 le1); rewrite rank_pid_mx // ltnn.
Qed.

Lemma qr_turn_inv (Hi : 'M[R]_k.+1) :
  Hi^T = Hi -> Hi *m Hi = 1%:M ->
  (forall r, r != 0 -> (Hi *m dsubmx (col c A)) r 0 = 0) ->
  qr_inv A0 i.+1 (Q *m block_mx 1%:M 0 0 Hi) (block_mx 1%:M 0 0 Hi *m A).
Proof.
have [orth QA tri] := inv => symH invH zeroH.
set Hb := block_mx _ _ _ _.
have symHb : Hb^T = Hb by rewrite /Hb tr_block_mx trmx1 !trmx0 symH.
have invHb : Hb *m Hb = 1%:M.
  rewrite /Hb mulmx_block !mulmx0 !mul0mx !mul1mx !addr0 add0r invH.
  by rewrite -scalar_mx_block.
split.
- by rewrite trmx_mul symHb mulmxA -(mulmxA Hb) orth mulmx1.
- by rewrite mulmxA -(mulmxA Q) invHb mulmx1.
- move=> r j; rewrite ltnS => le_ji lt_jr.
  have -> : Hb *m A = col_mx (usubmx A) (Hi *m dsubmx A).
    by rewrite -{1}(vsubmxK A) mul_block_col !mul1mx !mul0mx addr0 add0r.
  case: (split_ordP r) lt_jr => [r1 ->|r2 ->] /= lt_jr.
    rewrite col_mxEu mxE tri //.
    by rewrite (leq_trans lt_jr) // ltnW.
  rewrite col_mxEd; move: le_ji; rewrite leq_eqVlt => /orP [/eqP ji|lt_ji].
    have -> : j = c by apply: val_inj; rewrite ci.
    have -> : (Hi *m dsubmx A) r2 c = (Hi *m dsubmx (col c A)) r2 0.
      by rewrite !mxE; apply: eq_bigr => t _; rewrite !mxE.
    apply: zeroH; rewrite -val_eqE /= -lt0n.
    by move: lt_jr; rewrite ji -{1}[i]addn0 ltn_add2l.
  rewrite mxE big1 // => t _; rewrite mxE tri ?mulr0 //=.
  by rewrite (leq_trans lt_ji) // leq_addr.
Qed.

End Turn.


Lemma qr_cast_turn m n t k (e : m = (t + k.+1)%N) (A0 A : 'M[R]_(m, n))
    (Q : 'M[R]_m) (c : 'I_n) :
  val c = t -> row_full A0 -> qr_inv A0 t Q A ->
  exists Hi,
    House (dsubmx (castmx (e, erefl 1%N) (col c A))) = Some Hi
    /\ qr_inv A0 t.+1 (Q *m castmx (esym e, esym e) (block_mx 1%:M 0 0 Hi))
         (castmx (esym e, esym e) (block_mx 1%:M 0 0 Hi) *m A).
Proof.
move=> ct; subst m => full inv; rewrite castmx_id.
have [Hi [defH symH invH zeroH]] := HouseP (pivot_nonzero ct inv full).
exists Hi; split=> //; rewrite !castmx_id.
exact: (qr_turn_inv ct inv symH invH zeroH).
Qed.

Lemma qr_body_inv m n (A0 A : 'M[R]_(m, n)) (Q : 'M[R]_m) t :
  row_full A0 -> (t < m)%N -> (t < n)%N -> qr_inv A0 t Q A ->
  exists Q' A', qr_body t (Q, A) = Some (Q', A') /\ qr_inv A0 t.+1 Q' A'.
Proof.
move=> full lt_tm lt_tn inv; rewrite /qr_body !insubT.
have [Hi [-> inv']] :=
  @qr_cast_turn m n t (m - t).-1 (tail_dim (ltn_ord (Sub t lt_tm)))
    A0 A Q (Sub t lt_tn) erefl full inv.
by eexists; eexists; split; first by []; exact: inv'.
Qed.

Lemma qr_loop_inv m n (A0 : 'M[R]_(m, n)) t :
  row_full A0 -> (t <= n - (m == n))%N ->
  exists Q A,
    foldl (fun acc i => obind (qr_body i) acc) (Some (1%:M, A0)) (iota 0 t)
    = Some (Q, A) /\ qr_inv A0 t Q A.
Proof.
move=> full; have le_nm : (n <= m)%N.
  by move: full; rewrite /row_full => /eqP <-; apply: rank_leq_row.
elim: t => [_|t IH lt_t].
  by exists 1%:M, A0; split=> //; split; rewrite ?trmx1 ?mul1mx.
have [Q [A [run inv]]] := IH (ltnW lt_t).
have lt_tn : (t < n)%N := leq_trans lt_t (leq_subr _ _).
have [Q' [A' [body inv']]] :=
  qr_body_inv full (leq_trans lt_tn le_nm) lt_tn inv.
exists Q', A'; split=> //.
by rewrite -addn1 iotaD foldl_cat run /= add0n.
Qed.

Lemma qr_correct m n (A0 : 'M[R]_(m, n)) :
  row_full A0 ->
  exists Q Rm,
    [/\ qr A0 = Some (Q, Rm), Q *m Rm = A0, Q^T *m Q = 1%:M
      & forall (r : 'I_m) (j : 'I_n), (j < r)%N -> Rm r j = 0].
Proof.
move=> full; have [Q [Rm [run [orth QR tri]]]] := qr_loop_inv full (leqnn _).
exists Q, Rm; split=> // r j lt_jr.
case: (ltnP j (n - (m == n))) => [lt_j|]; first exact: tri.
case: eqP => [e|_]; last by rewrite subn0 leqNgt ltn_ord.
rewrite leq_subLR add1n => lt_nj.
have lt_rn : (r < n)%N by rewrite -e ltn_ord.
by have := leq_trans lt_rn lt_nj; rewrite ltnNge lt_jr.
Qed.

End QRTheory.

(** ** Least squares *)

Section LeastSquaresTheory.
Variable R : rcfType.

Lemma dot_sub_orthogonal n (u w : 'cV[R]_n) :
  dot u w = 0 -> dot (u - w) (u - w) = dot u u + dot w w.
Proof.
move=> uw; have wu : dot w u = 0 by rewrite dotC.
by rewrite dotDl dotNl !dotDr !dotNr uw wu oppr0 addr0 sub0r opprK.
Qed.

Lemma normal_equations_least_squares n q (x : 'M[R]_(n, q)) (y : 'cV[R]_n)
    (beta : 'cV[R]_q) :
  x^T *m (y - x *m beta) = 0 ->
  forall b, sq_residual x y b
            = sq_residual x y beta + dot (x *m (b - beta)) (x *m (b - beta)).
Proof.
move=> ne b; rewrite /sq_residual.
have -> : y - x *m b = (y - x *m beta) - x *m (b - beta).
  by rewrite mulmxBr opprB addrA subrK.
by rewrite dot_sub_orthogonal // dot_mulmxl ne dot0l.
Qed.

Lemma least_squares_unique n q (x : 'M[R]_(n, q)) (y : 'cV[R]_n)
    (beta : 'cV[R]_q) :
  row_full x -> x^T *m (y - x *m beta) = 0 ->
  least_squares x y beta /\ forall b, least_squares x y b -> b = beta.
Proof.
move=> /row_fullP [L Lx] ne; split=> [b|b lsb].
  by rewrite (normal_equations_least_squares ne b) lerDl dot_ge0.
have := lsb beta; rewrite (normal_equations_least_squares ne b).
rewrite -subr_ge0 opprD addrA subrr sub0r oppr_ge0 => le0.
have /eqP : dot (x *m (b - beta)) (x *m (b - beta)) = 0.
  by apply/eqP; rewrite eq_le le0 dot_ge0.
rewrite dot_eq0 => /eqP xd.
by apply/eqP; rewrite -subr_eq0 -[b - beta]mul1mx -Lx -mulmxA xd mulmx0.
Qed.

End LeastSquaresTheory.

Section BetaQR.
Variable R : rcfType.

Lemma beta_qr_normal P d (x : 'M[R]_(P + d, P)) (y : 'cV[R]_(P + d)) :
  row_full x ->
  exists beta, beta_qr x y = Some beta /\ x^T *m (y - x *m beta) = 0.
Proof.
move=> full; have [Q [Rf [run QR orth tri]]] := qr_correct full.
rewrite /beta_qr run; set R1 := usubmx Rf; set Q1 := lsubmx Q.
have Rd0 : dsubmx Rf = 0.
  apply/matrixP => r j; rewrite !mxE tri //=.
  by rewrite (leq_trans (ltn_ord j)) // leq_addr.
have RfE : Rf = col_mx R1 0 by rewrite -Rd0 vsubmxK.
have xE : x = Q1 *m R1.
  by rewrite -QR -{1}(hsubmxK Q) RfE mul_row_col mulmx0 addr0.
have Q1orth : Q1^T *m Q1 = 1%:M.
  move: orth; rewrite -{1 2}(hsubmxK Q) tr_row_mx mul_col_row.
  by rewrite (scalar_mx_block P d 1) => /eq_block_mx [].
have triu : \matrix_(i, j) (if (i <= j)%N then R1 i j else 0) = R1.
  apply/matrixP => i j; rewrite mxE; case: leqP => // lt_ji.
  by rewrite /R1 mxE tri.
have unitR1 : R1 \in unitmx.
  rewrite -row_full_unit /row_full eqn_leq rank_leq_col /=.
  by have := mxrankM_maxr Q1 R1; rewrite -xE (eqP full).
rewrite /solve_triangular triu unitR1.
exists (invmx R1 *m (Q1^T *m y)); split=> //.
rewrite mulmxBr xE trmx_mul -!mulmxA (mulmxA Q1^T) Q1orth mul1mx.
by rewrite (mulmxA R1) (mulmxV unitR1) mul1mx subrr.
Qed.

Lemma col_mx1_full P d : row_full (col_mx 1%:M 0 : 'M[R]_(P + d, P)).
Proof.
by apply/row_fullP; exists (row_mx 1%:M 0); rewrite mul_row_col mulmx0 addr0 mulmx1.
Qed.

End BetaQR.

(** ** Random inputs *)

Section RandomInputs.
Variable R : rcfType.

Lemma admm_simulate_beta (G : generator R) n p (g : gstate G) :
  (admm_simulate G n p g).1.1
  = col_mx (const_mx 1) (\col_i nth 0 (draws G p g).1 i).
Proof.
rewrite /admm_simulate; case: (draws G p g) => b g1.
by case: (draws G (n * p) g1) => xs g2; case: (draws G n g2) => e g3.
Qed.

Lemma size_draws (G : generator R) count (g : gstate G) :
  size (draws G count g).1 = count.
Proof.
elim: count g => [|c IH] g //=.
by case: (normal g) => v g1; have := IH g1; case: (draws G c g1) => vs g2 /= ->.
Qed.

Lemma admm_simulate_beta_inj (G : generator R) n p (g g' : gstate G) :
  (admm_simulate G n p g).1.1 = (admm_simulate G n p g').1.1 ->
  (draws G p g).1 = (draws G p g').1.
Proof.
rewrite !admm_simulate_beta => /eq_col_mx [_ /colP eq_b].
apply: (@eq_from_nth _ 0); first by rewrite !size_draws.
move=> i; rewrite size_draws => lt_ip.
by have := eq_b (Ordinal lt_ip); rewrite !mxE.
Qed.

End RandomInputs.

(** ** Householder reflections: the image of the array *)

Section HouseholderExtras.

Variable R : rcfType.

Lemma House_zero k : House (0 : 'cV[R]_k.+2) = None.
Proof.
rewrite /House mxE add0r /copysign lexx /norm dot0l sqrtr0 normr0 eqxx.
by [].
Qed.

(** On the zero array of one entry the overwritten [v] is [(1)]. *)
Lemma House_zero_one : House (0 : 'cV[R]_1) = Some (-1)%:M.
Proof.
rewrite /House andbF; congr Some.
apply/matrixP => i j; rewrite (ord1 i) (ord1 j) !mxE /= big_ord_recl big_ord0.
rewrite dot1 !mxE /= !mulr1n; lra.
Qed.

Lemma House_apply k (a : 'cV[R]_k.+1) :
  a != 0 ->
  exists Hi, House a = Some Hi
    /\ Hi *m a = (- copysign (norm a) (a 0 0)) *: delta_mx 0 0.
Proof.
move=> a0; have d0 := House_divisor a0.
have [Hi [defH _ _ zeroH]] := HouseP a0.
exists Hi; split=> //; apply/colP => i; rewrite [RHS]mxE [delta_mx _ _ _ _]mxE.
case: (eqVneq i 0) => [->|i0]; last by rewrite zeroH // mulr0.
move: defH; rewrite /House (negbTE d0) => -[<-].
set s := copysign (norm a) (a 0 0) in d0 *; set d := a 0 0 + s in d0 *.
set v : 'cV[R]_k.+1 := \col_i _.
have vE : v = d^-1 *: (a + s *: delta_mx 0 0).
  apply/colP => j; rewrite 5!mxE; case: eqP => [->|_] /=.
    by rewrite mulr1 mulVf.
  by rewrite mulr0 addr0 mulrC.
have ss : s ^+ 2 = dot a a by rewrite /s copysign_sq norm_sq.
have wa : dot (a + s *: delta_mx 0 0) a = dot a a + s * a 0 0.
  by rewrite dotDl dotZl dot_delta.
have ww : dot (a + s *: delta_mx 0 0) (a + s *: delta_mx 0 0)
          = 2 * (dot a a + s * a 0 0).
  rewrite dotDr wa dotZr dotDl dotZl dot_delta (dotC a (delta_mx 0 0)) dot_delta.
  by rewrite mxE !eqxx /= -ss; ring.
have v00 : v 0 0 = 1 by rewrite mxE eqxx.
have w0 : dot a a + s * a 0 0 != 0.
  have : dot v v != 0.
    by rewrite dot_eq0; apply/eqP => /colP /(_ 0) /eqP; rewrite v00 mxE oner_eq0.
  by rewrite vE dotZl dotZr ww !mulf_eq0 !negb_or => /and3P [_ _ /andP [_]].
rewrite reflector_apply 3!mxE v00 vE !dotZl dotZr ww wa eqxx /= mulr1.
by rewrite /d; field; rewrite d0 w0.
Qed.

End HouseholderExtras.

(** ** [qr] on inputs it cannot factor *)

Section QRFailures.

Variable R : rcfType.

Lemma foldl_qr_None m n (s : seq nat) :
  foldl (fun acc i => obind (@qr_body R m n i) acc) None s = None.
Proof. by elim: s. Qed.

Lemma qr_wide m n (A : 'M[R]_(m, n)) : (m < n)%N -> qr A = None.
Proof.
move=> lt_mn; rewrite /qr (ltn_eqF lt_mn) subn0.
have -> : iota 0 n = iota 0 m ++ m :: iota m.+1 (n - m).-1.
  by rewrite -{1}(subnKC (ltnW lt_mn)) iotaD add0n -(subnSK lt_mn).
rewrite foldl_cat; case: (foldl _ _ (iota 0 m)) => [[Q B]|] /=.
  by rewrite /qr_body insubF ?ltnn //= foldl_qr_None.
exact: foldl_qr_None.
Qed.

Lemma qr_zero_column m n (A : 'M[R]_(m.+2, n.+1)) :
  col 0 A = 0 -> qr A = None.
Proof.
move=> A0; rewrite /qr.
have -> : (n.+1 - (m.+2 == n.+1))%N = (n - (m.+1 == n)).+1.
  rewrite eqSS; case: eqP => [<-|_]; last by rewrite !subn0.
  by rewrite /= !subn1.
rewrite /= !insubT /=.
set a := dsubmx _.
have -> : a = 0.
  apply/colP => i; rewrite /a mxE castmxE /= mxE [RHS]mxE.
  have /colP /(_ (cast_ord (esym (tail_dim (ltn0Sn m.+1))) (rshift 0 i))) := A0.
  rewrite !mxE => e0; rewrite -[RHS]e0; congr (A _ _); exact: val_inj.
by rewrite House_zero /= foldl_qr_None.
Qed.

End QRFailures.

(** ** Regression on exact data *)

Section RegressionExtras.

Variable R : rcfType.

Lemma beta_qr_exact P d (x : 'M[R]_(P + d, P)) (b : 'cV[R]_P) :
  row_full x -> beta_qr x (x *m b) = Some b.
Proof.
move=> full; have [beta [run ne]] := beta_qr_normal (x *m b) full.
have [_ uniq] := least_squares_unique full ne.
rewrite run; congr Some; apply/esym/uniq => b'.
rewrite /sq_residual subrr dot0l; exact: dot_ge0.
Qed.

End RegressionExtras.

(** ** Conjugate gradients: the loop while it runs *)

Section ConjugateGradientExtras.

Variable R : rcfType.

Lemma vec2_neq0 (a c : R) : a != 0 -> vec2 a c != 0.
Proof.
move=> a0; apply/eqP => /colP /(_ 0); rewrite !mxE /= => /eqP.
by rewrite (negbTE a0).
Qed.

End ConjugateGradientExtras.

Section CgEdge.
Variable R : rcfType.

Lemma cg_loop_steps n (A : 'M[R]_n) (s0 : cg_state R n) k :
  spd A -> pk s0 = - rk s0 ->
  (forall j, (j < k)%N -> cg_continue (iter j (cg_step A) s0)) ->
  (forall j, (j < k)%N ->
     cg_body A (iter j (cg_step A) s0) = Some (iter j.+1 (cg_step A) s0))
  /\ cg_inv A s0 k.
Proof.
case=> symA pdA start go.
have nz j : (j < k)%N -> cg_residual A s0 j != 0.
  by move=> lt; apply: cg_continue_neq0; apply: go.
have inv : cg_inv A s0 k by apply: cg_inv_holds.
split=> // j lt_jk; apply: cg_bodyE; first by rewrite dot_eq0; apply: nz.
rewrite -dot_mulmxl; apply: lt0r_neq0.
exact: (cg_del_gt0 pdA inv (ltnW lt_jk) (nz j lt_jk)).
Qed.

End CgEdge.

(** ** The Kalman gain *)

Section KalmanExtras.

Variable R : rcfType.

Lemma innovation_unit n (cov_p cov_w B J : 'M[R]_n) :
  psd cov_p -> (forall v : 'cV[R]_n, v != 0 -> 0 < dot v (cov_w *m v)) ->
  J \in unitmx ->
  B *m (cov_p *m B^T) + J *m (cov_w *m J^T) \in unitmx.
Proof.
move=> pp pw unitJ; apply: pd_unitmx => v v0.
rewrite mulmxDl dotDr !mulmxA.
apply: ltr_wpDl; first exact: (psd_congruence B pp).
rewrite -!mulmxA dot_mulmxl; apply: pw.
apply/eqP => Jv; move: v0; rewrite -trmx_eq0 -(mulmxK unitJ v^T).
by rewrite -[v^T *m J]trmxK trmx_mul trmxK Jv trmx0 mul0mx eqxx.
Qed.

Lemma k_k_defined n (cov_p cov_w B J : 'M[R]_n) :
  psd cov_p -> (forall v : 'cV[R]_n, v != 0 -> 0 < dot v (cov_w *m v)) ->
  J \in unitmx ->
  exists K, k_k cov_p cov_w B J = Some K.
Proof.
move=> pp pw unitJ; rewrite /k_k /inv innovation_unit //.
by eexists.
Qed.

Lemma psd_inverse n (S : 'M[R]_n) : S \in unitmx -> psd S -> psd (invmx S).
Proof.
move=> unitS pS v; rewrite -{1}[v](mulKVmx unitS) dotC.
exact: pS.
Qed.

Lemma posterior_below_prior n (cov_p cov_w B J K : 'M[R]_n) :
  symmetric cov_p -> psd cov_p -> psd cov_w ->
  k_k cov_p cov_w B J = Some K ->
  psd (cov_p - update_posterior_covariance K B cov_p).
Proof.
move=> sp pp pw /k_kE [/=]; set S := _ + _ => unitS defK.
have pS : psd S.
  rewrite /S !mulmxA; apply: psdD; exact: psd_congruence.
rewrite /update_posterior_covariance mulmxBl mul1mx opprB addrC subrK.
have -> : K *m B *m cov_p = (cov_p *m B^T) *m invmx S *m (cov_p *m B^T)^T.
  by rewrite defK trmx_mul trmxK sp -!mulmxA.
exact: psd_congruence (psd_inverse unitS pS).
Qed.

End KalmanExtras.

(** ** The whole-vector threshold: small inputs, sign changes *)

Section SoftThresholdExtras.

Variable R : rcfType.

Lemma soft_threshold_small n (x : 'cV[R]_n) (t : R) :
  (forall j, `|x j 0| <= t) -> soft_threshold x t = 0.
Proof.
move=> small; apply/colP => i; rewrite soft_thresholdE mxE.
suff -> : \big[Num.max/0]_(j < n) (`|x j 0| - t) = 0 by rewrite mulr0.
apply/le_anti/andP; split; last exact: bigmax_ge_id.
by apply/bigmax_leP; split=> // j _; rewrite subr_le0.
Qed.

Lemma soft_threshold_opp n (x : 'cV[R]_n) (t : R) :
  soft_threshold (- x) t = - soft_threshold x t.
Proof.
apply/colP => i; rewrite [RHS]mxE !soft_thresholdE mxE sgrN mulNr; congr (- (_ * _)).
by apply: eq_bigr => j _; rewrite mxE normrN.
Qed.

Lemma soft_threshold_sign n (x : 'cV[R]_n) (t : R) i :
  0 <= x i 0 * soft_threshold x t i 0.
Proof.
rewrite soft_thresholdE mulrA mulr_ge0 //; last exact: bigmax_ge_id.
by rewrite mulrC -normrEsg.
Qed.

End SoftThresholdExtras.

(** ** The graphical lasso: what a sweep keeps *)

Section GlassoTheory.

Variable R : rcfType.
Variable q : nat.
Variable glmnet : 'M[R]_q -> 'cV[R]_q -> R -> option 'cV[R]_q.
Variable S : 'M[R]_q.+1.
Variable lambda : R.

Lemma symmetricE n (M : 'M[R]_n) r c : symmetric M -> M r c = M c r.
Proof. by move=> symM; rewrite -[in LHS]symM mxE. Qed.

Lemma glasso_update_inv WP pi WP' :
  glasso_inv S lambda WP -> glasso_update glmnet S lambda WP pi = Some WP' ->
  glasso_inv S lambda WP'.
Proof.
case: WP => W P [/= symW symP diagW]; rewrite /glasso_update.
case: glmnet => [beta|//]; case: divide => [Ppp|//] [<-] /=; split=> /=.
- apply/matrixP => r c; rewrite !mxE.
  case: (unliftP pi r) => [r' er|er]; case: (unliftP pi c) => [c' ec|ec] //.
  + exact: symmetricE.
  + by rewrite er ec.
- apply/matrixP => r c; rewrite !mxE.
  case: (unliftP pi r) => [r' er|er]; case: (unliftP pi c) => [c' ec|ec] //.
  exact: symmetricE.
- by move=> r; rewrite mxE; case: (unliftP pi r).
Qed.

Lemma glasso_sweep_inv WP k WP' :
  glasso_inv S lambda WP -> glasso_sweep glmnet S lambda WP = Finished k WP' ->
  glasso_inv S lambda WP' /\ k = q.+1.
Proof.
move=> inv /(for_each_inv (P := glasso_inv S lambda)) [] //.
  by move=> pi t t' invt; apply: glasso_update_inv.
by rewrite size_enum_ord add0n.
Qed.

Lemma glasso_start_inv :
  symmetric S -> glasso_inv S lambda (S + lambda *: 1%:M, 1%:M).
Proof.
move=> symS; split=> /=.
- by rewrite /symmetric linearD /= symS linearZ /= trmx1.
- exact: symmetric_scalar.
- by move=> r; rewrite !mxE eqxx mulr1.
Qed.

Lemma glasso_loop_inv maxit k WP :
  symmetric S -> glasso_loop glmnet S lambda maxit = Finished k WP ->
  glasso_inv S lambda WP /\ k = size (seq_R maxit).
Proof.
move=> symS /(for_each_inv (P := glasso_inv S lambda)) [] //.
- move=> _ t t' invt; case e : (glasso_sweep _ _ _ _) => [n u| |] //= [<-].
  by have [] := glasso_sweep_inv invt e.
- exact: glasso_start_inv.
Qed.

Lemma glasso_inv_holds maxit WP :
  symmetric S -> glasso glmnet S lambda maxit = Some WP -> glasso_inv S lambda WP.
Proof.
move=> symS; rewrite /glasso.
case e : (glasso_loop _ _ _ _) => [k u| |] //= [<-].
by have [] := glasso_loop_inv symS e.
Qed.

(** With a solver that returns zero, no turn fails as long as the diagonal
    of [S] plus [lambda] has no zero entry. *)
Lemma glasso_zero_solver_update WP pi :
  (forall r, S r r + lambda != 0) -> glasso_inv S lambda WP ->
  isSome (glasso_update (fun _ _ _ => Some 0) S lambda WP pi).
Proof.
case: WP => W0 P0 nz [_ _ /= d0].
rewrite /glasso_update /divide mulmx0 dot0r subr0 mxE unlift_none.
by rewrite d0 (negbTE (nz pi)).
Qed.

Lemma glasso_zero_solver maxit :
  symmetric S -> (forall r, S r r + lambda != 0) ->
  exists WP, glasso_loop (fun _ _ _ => Some 0) S lambda maxit
             = Finished (size (seq_R maxit)) WP.
Proof.
move=> symS nz; rewrite /glasso_loop.
have step pi t t' : glasso_inv S lambda t ->
    glasso_update (fun _ _ _ => Some 0) S lambda t pi = Some t' ->
    glasso_inv S lambda t'.
  case: t => W0 P0 [/= symW symP diagW]; rewrite /glasso_update.
  case: divide => [Ppp|//] [<-] /=; split=> /=.
  - apply/matrixP => r c; rewrite !mxE.
    case: (unliftP pi r) => [r' er|er]; case: (unliftP pi c) => [c' ec|ec] //.
    + exact: symmetricE.
    + by rewrite er ec.
  - apply/matrixP => r c; rewrite !mxE.
    case: (unliftP pi r) => [r' er|er]; case: (unliftP pi c) => [c' ec|ec] //.
    exact: symmetricE.
  - by move=> r; rewrite mxE; case: (unliftP pi r).
have sweep t : glasso_inv S lambda t ->
    exists t', glasso_sweep (fun _ _ _ => Some 0) S lambda t
               = Finished q.+1 t' /\ glasso_inv S lambda t'.
  move=> invt.
  have [t' e] := for_each_total (enum 'I_q.+1) 0 step
    (fun pi u => @glasso_zero_solver_update u pi nz) invt.
  exists t'; rewrite /glasso_sweep e size_enum_ord add0n; split=> //.
  by have [] := for_each_inv step invt e.
apply: (for_each_total (P := glasso_inv S lambda)).
- by move=> _ t t' /sweep [u [-> invu]] /= [<-].
- by move=> _ t /sweep [u [-> _]].
- exact: glasso_start_inv.
Qed.

End GlassoTheory.

(** ** Gram matrices shifted by a positive multiple of the identity *)

Section ShiftedGram.

Variable R : rcfType.

Lemma gram_shift_spd m n (M : 'M[R]_(m, n)) (c : R) :
  0 < c -> spd (M *m M^T + c *: 1%:M).
Proof.
move=> c0; split=> [|v v0].
  by rewrite /symmetric linearD /= trmx_mul trmxK linearZ /= trmx1.
rewrite mulmxDl dotDr -mulmxA dot_mulmxl -scalemxAl mul1mx dotZr.
apply: ltr_wpDl; first exact: dot_ge0.
by rewrite mulr_gt0 // lt0r dot_eq0 v0 dot_ge0.
Qed.

End ShiftedGram.

Section GlassoColumn.

Variable R : rcfType.
Variable q : nat.
Variable glmnet : 'M[R]_q -> 'cV[R]_q -> R -> option 'cV[R]_q.
Variable S : 'M[R]_q.+1.
Variable lambda : R.

Lemma glasso_update_column W P pi W' P' :
  glasso_update glmnet S lambda (W, P) pi = Some (W', P') ->
  col pi (W' *m P') = delta_mx pi 0.
Proof.
rewrite /glasso_update.
set W_11 := row' pi (col' pi W).
case: (glmnet _ _ _) => [beta|//].
set w := W_11 *m beta.
set W1 := (\matrix_(r, c) _ : 'M[R]_q.+1).
have W1pi : W1 pi pi = W pi pi by rewrite mxE unlift_none.
have W1col c : W1 (lift pi c) pi = w c 0 by rewrite mxE unlift_none liftK.
have W1row c : W1 pi (lift pi c) = w c 0 by rewrite mxE unlift_none liftK.
have W1in r c : W1 (lift pi r) (lift pi c) = W_11 r c by rewrite !mxE !liftK.
have -> : dot (row' pi (col pi W1)) beta = dot w beta.
  by apply: eq_bigr => c _; rewrite 2!mxE W1col.
rewrite W1pi /divide; case: eqP => [//|/eqP d0] [eW eP].
apply/colP => r; rewrite 2!mxE (bigD1_ord pi) //= -eW.
have -> : \sum_(i < q) W1 r (lift pi i) * P' (lift pi i) pi
          = \sum_(i < q) W1 r (lift pi i) * (- (1 / (W pi pi - dot w beta)) * beta i 0).
  by apply: eq_bigr => c _; rewrite -eP [in X in _ * X]mxE unlift_none liftK.
rewrite -eP [X in _ * X]mxE unlift_none [RHS]mxE eqxx andbT.
case: (unliftP pi r) => [r' ->|->].
- have -> : \sum_(i < q) W1 (lift pi r') (lift pi i) * (- (1 / (W pi pi - dot w beta)) * beta i 0)
            = \sum_(i < q) - (1 / (W pi pi - dot w beta)) * (W_11 r' i * beta i 0).
    by apply: eq_bigr => c _; rewrite W1in mulrCA.
  rewrite W1col.
  rewrite -mulr_sumr eq_sym (negbTE (neq_lift _ _)).
  have -> : \sum_i W_11 r' i * beta i 0 = w r' 0 by rewrite mxE.
  by rewrite mulNr mulrC subrr.
- have -> : \sum_(i < q) W1 pi (lift pi i) * (- (1 / (W pi pi - dot w beta)) * beta i 0)
            = \sum_(i < q) - (1 / (W pi pi - dot w beta)) * (w i 0 * beta i 0).
    by apply: eq_bigr => c _; rewrite W1row mulrCA.
  rewrite W1pi eqxx.
  rewrite -mulr_sumr -/(dot w beta) mulNr mulrC -mulrBr mul1r mulVf //.
Qed.

End GlassoColumn.

(** ** ADMM with a single coefficient *)

Section AdmmOneCoefficient.

Variable R : rcfType.

Lemma soft_threshold_one_zero (v : 'cV[R]_1) : soft_threshold v 0 = v.
Proof.
rewrite soft_threshold_length_one; apply/colP => i; rewrite mxE subr0.
by rewrite (max_idPl (normr_ge0 _)) -numEsg.
Qed.

Variables (n : nat) (X : 'M[R]_(n, 1)) (y : 'cV[R]_n) (rho : R).
Hypothesis rho0 : 0 < rho.

Let g : R := dot X X.
Let t : R := dot X y.
Let step := admm_update (invmx (X^T *m X + rho *: 1%:M)) (X^T *m y) 0 rho.

Lemma admm_one_step (s : admm_state R 1) :
  [/\ x_step (step s) = (g + rho)^-1 *: (t%:M + rho *: (z_step s - u_step s)),
      z_step (step s) = x_step (step s) + u_step s
    & u_step (step s) = 0].
Proof.
have gram : X^T *m X + rho *: 1%:M = (g + rho)%:M.
  by rewrite dot_scalar -/g -[g%:M]scalemx1 -scalerDl scalemx1.
rewrite /step /admm_update /= gram invmx_scalar mul_scalar_mx dot_scalar -/t.
rewrite mul0r soft_threshold_one_zero; split=> //.
by rewrite [_ + u_step s]addrC subrr.
Qed.

Lemma admm_one_contracts (s : admm_state R 1) :
  g != 0 -> z_step s = x_step s -> u_step s = 0 ->
  x_step (step s) - ols_coefficients X y
  = (rho / (g + rho)) *: (x_step s - ols_coefficients X y).
Proof.
move=> g0 ez eu; have [-> _ _] := admm_one_step s.
have gr0 : g + rho != 0.
  by rewrite gt_eqF // ltr_wpDl // dot_ge0.
rewrite ez eu subr0 /ols_coefficients !dot_scalar -/g -/t invmx_scalar.
rewrite mul_scalar_mx scale_scalar_mx.
rewrite [x_step s]mx11_scalar; move: (x_step s 0 0) => a.
rewrite !scale_scalar_mx -!raddfD /= -!raddfB /= !scale_scalar_mx -raddfB /=; congr (_%:M).
by field; rewrite g0.
Qed.

Lemma admm_one_u k (s0 : admm_state R 1) : u_step (iter k.+1 step s0) = 0.
Proof. by rewrite iterS; have [_ _ ->] := admm_one_step (iter k step s0). Qed.

Lemma admm_one_z k (s0 : admm_state R 1) :
  z_step (iter k.+2 step s0) = x_step (iter k.+2 step s0).
Proof.
rewrite iterS; have [_ -> _] := admm_one_step (iter k.+1 step s0).
by rewrite admm_one_u addr0.
Qed.

Lemma admm_one_error k :
  g != 0 ->
  x_step (iter k.+2 step (AdmmState (const_mx 1) (const_mx 1) (const_mx 1)))
    - ols_coefficients X y
  = (rho / (g + rho)) ^+ k
    *: (x_step (iter 2 step (AdmmState (const_mx 1) (const_mx 1) (const_mx 1)))
        - ols_coefficients X y).
Proof.
move=> g0; elim: k => [|k IH].
  rewrite expr0 scale1r; reflexivity.
rewrite [in LHS]iterS [LHS](admm_one_contracts g0 (admm_one_z k _) (admm_one_u k.+1 _)).
rewrite [X in _ *: X]IH scalerA -exprS; reflexivity.
Qed.

Lemma admm_one_ratio : X != 0 -> g != 0 /\ 0 < rho / (g + rho) < 1.
Proof.
move=> X0; have g0 : 0 < g by rewrite lt0r dot_eq0 X0 dot_ge0.
split; first by rewrite gt_eqF.
have gr : 0 < g + rho by rewrite addr_gt0.
by rewrite divr_gt0 //= ltr_pdivrMr // mul1r ltrDr.
Qed.

End AdmmOneCoefficient.

(** ** The seeded system of the conjugate-gradient notebook, the
    observation Jacobian *)

Section DataTheory.

Variable R : rcfType.

Lemma gram_symmetric m n (W : 'M[R]_(m, n)) : symmetric (W^T *m W).
Proof. by rewrite /symmetric trmx_mul trmxK. Qed.

Lemma gram_psd m n (W : 'M[R]_(m, n)) : psd (W^T *m W).
Proof. by move=> v; rewrite -mulmxA dot_mulmxl trmxK dot_ge0. Qed.

Lemma j_k_unit (k : R) dim : k != 0 -> j_k k dim \in unitmx.
Proof.
move=> k0; rewrite /j_k unitmxE det_diag unitfE.
by apply/prodf_neq0 => i _; rewrite mxE.
Qed.

End DataTheory.

(** ** The number of turns of the loops *)

Section LoopCounts.

Variable R : rcfType.

Lemma qr_loopE m n (A : 'M[R]_(m, n)) :
  qr_loop A = if qr A is Some QA then Finished (n - (m == n)) QA else Failed.
Proof. by rewrite /qr_loop for_each_foldl size_iota add0n. Qed.

Lemma qr_loop_full m n (A : 'M[R]_(m, n)) :
  row_full A -> exists QA, qr_loop A = Finished (n - (m == n)) QA.
Proof.
move=> full; have [Q [Rm [run _ _ _]]] := qr_correct full.
by exists (Q, Rm); rewrite qr_loopE run.
Qed.

(** On the identity matrix, from the start [0], one turn reaches [b]. *)
Lemma cg_identity_one_turn n (b : 'cV[R]_n) fuel :
  (exists i, b i 0 < - tolerance R) ->
  conjugate_gradient fuel.+1 1%:M b 0 = Finished 1 (CgState b 0 0).
Proof.
case=> i lt_b; rewrite /conjugate_gradient mulmx0 sub0r opprK.
set s0 := CgState 0 (- b) b.
have b0 : dot b b != 0.
  rewrite dot_eq0; apply/eqP => e; move: lt_b; rewrite e mxE oppr_gt0.
  by move/(lt_trans (tolerance_gt0 R)); rewrite ltxx.
have go : cg_continue s0.
  by apply/existsP; exists i; rewrite /= mxE ltrNr.
have stepE : cg_step 1%:M s0 = CgState b 0 0.
  rewrite /cg_step /= trmx1 !mul1mx dotNl dotNr opprK divff // scale1r add0r.
  by rewrite addNr dot0l mul0r scale0r oppr0 addr0.
have body : cg_body 1%:M s0 = Some (CgState b 0 0).
  by rewrite -stepE; apply: cg_bodyE; rewrite /= ?trmx1 ?mul1mx ?dotNl ?dotNr ?opprK.
have /negbTE exit : ~~ cg_continue (CgState b 0 0).
  apply/existsP => -[j]; rewrite /= mxE.
  by move/(lt_trans (tolerance_gt0 R)); rewrite ltxx.
by rewrite /= go body; case: fuel => [|f] /=; rewrite exit.
Qed.

End LoopCounts.

(** ** The shapes of the arrays *)

Section ShapeTheory.

Local Open Scope nat_scope.
Local Open Scope shapes_scope.

Lemma while_shapes_all (S : Type) (P : pred dims) (cond : S -> Shapes unit)
    (body : S -> Shapes S) (s : S) :
  (forall log, all P log ->
     exists log', cond s log = Some (tt, log') /\ all P log') ->
  (forall log, all P log ->
     exists log', body s log = Some (s, log') /\ all P log') ->
  forall turns log, all P log ->
    exists log', while_shapes turns cond body s log = Some (s, log')
                 /\ all P log'.
Proof.
move=> hc hb; elim=> [|t IH] log al /=; rewrite /bind.
  by have [l1 [-> al1]] := hc log al; exists l1.
have [l1 [-> al1]] := hc log al.
by have [l2 [-> al2]] := hb l1 al1; apply: IH.
Qed.

Lemma cg_notebook_bounded turns : bounded 1000 1000 (cg_notebook turns).
Proof.
rewrite /bounded /cg_notebook /bind /=.
set log0 := (X in cg_loop_shapes _ _ _ _ X).
have al0 : all (within 1000 1000) log0 by [].
have [log' [run al']] :
    exists log', cg_loop_shapes turns [:: 5; 5] [:: 5] ([:: 5], [:: 5], [:: 5]) log0
                 = Some (([:: 5], [:: 5], [:: 5]), log')
                 /\ all (within 1000 1000) log'.
  apply: while_shapes_all al0 => log al.
    by eexists; split; [reflexivity | rewrite /= al].
  by eexists; split; [reflexivity | rewrite /= al].
by rewrite run /= al'.
Qed.

End ShapeTheory.

(** ** The shapes that [qr] constructs *)

Section QrShapes.

Local Open Scope nat_scope.
Local Open Scope shapes_scope.

Lemma for_shapes_cat (I S : Type) (a b : seq I) (body : I -> S -> Shapes S) s :
  for_shapes (a ++ b) body s
  =1 (s' <-- for_shapes a body s ;; for_shapes b body s').
Proof.
elim: a s => [|i a IH] s log //=; rewrite /bind.
by case: (body i s log) => [[s' log']|] //; rewrite IH.
Qed.

Lemma for_shapes_fixed (I : eqType) (S : Type) (items : seq I)
    (body : I -> S -> Shapes S) s :
  (forall i log, i \in items -> exists log', body i s log = Some (s, log')) ->
  forall log, exists log', for_shapes items body s log = Some (s, log').
Proof.
elim: items => [|i items IH] ok log /=; first by exists log.
have [log1 e1] := ok i log (mem_head _ _); rewrite /bind e1.
by apply: IH => j l in_j; apply: ok; rewrite inE in_j orbT.
Qed.

Lemma broadcast_same (d : dims) : broadcast d d = Some d.
Proof.
rewrite /broadcast; suff -> : broadcast_rev (rev d) (rev d) = Some (rev d).
  by rewrite /= revK.
by elim: (rev d) => [|x a IH] //=; rewrite eqxx /= IH.
Qed.

Lemma House_shapes_ok k log :
  0 < k -> exists log', House_shapes [:: k] log = Some ([:: k; k], log').
Proof.
move=> k0; rewrite /House_shapes /bind /= k0 /= k0 /= eqxx /=.
rewrite /np_elementwise (broadcast_same [:: k; k]) /=.
by eexists.
Qed.

Lemma qr_turn_ok m n i log :
  i < n -> i < m ->
  exists log',
    (H <-- np_eye m ;;
     a <-- np_column_below [:: m; n] i ;;
     Hi <-- House_shapes a ;;
     np_set_block H i Hi ;;;
     Q' <-- np_dot [:: m; m] H ;;
     A' <-- np_dot H [:: m; n] ;;
     ret (Q', A')) log = Some (([:: m; m], [:: m; n]), log').
Proof.
move=> lt_in lt_im; rewrite /bind /np_eye /np_column_below /array lt_in.
have pos : 0 < m - i by rewrite subn_gt0.
set L := (X in House_shapes _ X); have [log1 ->] := House_shapes_ok L pos.
by rewrite /np_set_block /bind /array broadcast_same eqxx /= !eqxx; eexists.
Qed.

Lemma qr_shapes_result m n log :
  omap fst (qr_shapes [:: m; n] log)
  = if n <= m then Some ([:: m; m], [:: m; n]) else None.
Proof.
rewrite /qr_shapes /bind /np_eye /array.
set body := (X in for_shapes _ X); set s0 := ([:: m; m], [:: m; n]).
have turn i l : i < n -> i < m -> exists l', body i s0 l = Some (s0, l').
  exact: qr_turn_ok.
case: leqP => [le_nm|lt_mn].
  have okb i l : i \in iota 0 (n - (m == n)) ->
      exists l', body i s0 l = Some (s0, l').
    rewrite mem_iota add0n /= => lt_i.
    have lt_in : i < n by apply: leq_trans lt_i (leq_subr _ _).
    apply: turn => //; move: lt_i.
    case: eqP => [->|_]; last by rewrite subn0 => /leq_trans; apply.
    by rewrite subn1 => /leq_trans; apply; rewrite leq_pred.
  by have [log' ->] := for_shapes_fixed okb ([:: m; m] :: log).
rewrite (ltn_eqF lt_mn) subn0.
have -> : iota 0 n = iota 0 m ++ m :: iota m.+1 (n - m).-1.
  by rewrite -{1}(subnKC (ltnW lt_mn)) iotaD add0n -(subnSK lt_mn).
have okb i l : i \in iota 0 m -> exists l', body i s0 l = Some (s0, l').
  rewrite mem_iota add0n /= => lt_im.
  exact: turn (ltn_trans lt_im lt_mn) lt_im.
rewrite for_shapes_cat /bind.
have [log' ->] := for_shapes_fixed okb ([:: m; m] :: log).
by rewrite /= /bind /= lt_mn /= subnn.
Qed.

End QrShapes.

(** * Part III: results on each notebook *)


(** ** ADMM for the LASSO *)

(** C1.  With [lambda = 0] and [rho = 1] the loop of the notebook does not
    reach the least-squares estimate.  On the design [X] = the 2 x 2 identity
    (full column rank) and [y = (2, 0)], whose least-squares coefficients are
    [(2, 0)], [solve] returns [(1/2) I], the loop runs its 100 turns and ends
    with [x.step = (2, 2 - 2^-99)]; after any [k + 2] turns
    [x.step = (2, 2 - 2^-(k+1))], so the second coefficient tends to [2], not
    to [0]. *)

Theorem admm_lasso_misses_ols (R : rcfType) :
  let X : 'M[R]_2 := 1%:M in
  let y : 'cV[R]_2 := vec2 2 0 in
  [/\ row_full X,
      ols_coefficients X y = vec2 2 0,
      solve (X^T *m X + 1 *: 1%:M) = Some (2^-1)%:M,
      exists s, admm X y 0 1 = Finished 100 s /\ x_step s = vec2 2 (2 - 2 ^- 99)
    & forall k,
        x_step (iter k.+2 (admm_update (2^-1)%:M (X^T *m y) 0 1)
                  (AdmmState (const_mx 1) (const_mx 1) (const_mx 1)))
        = vec2 2 (2 - 2 ^- k.+1)].
Proof.
move=> X y.
have gram : X^T *m X + 1 *: 1%:M = 2%:M.
  by rewrite /X trmx1 mul1mx scale1r -raddfD.
have two : (2 : R) != 0 by rewrite pnatr_eq0.
split.
- by rewrite /X row_full_unit unitmx1.
- by rewrite /ols_coefficients /X trmx1 !mul1mx invmx1 mul1mx.
- by rewrite gram /solve unitmx_scalar // invmx_scalar.
- eexists; split; first exact: admm_finished ltr01.
  by rewrite gram invmx_scalar /X trmx1 mul1mx (admm_example_iter R 98).
- by move=> k; rewrite /X trmx1 mul1mx admm_example_iter.
Qed.

(** C10, as the code has it.  [soft.threshold(x, thresh)] is [sign(x)] times
    the one number [M = max(max_j |x_j| - thresh, 0)]: [M] is non-negative,
    bounds every [|x_j| - thresh] and is [0] or one of them.  A component
    has absolute value [M] where [x_i] is not zero and is [0] where [x_i] is
    zero.  On arrays of length one the function is the element-wise
    operator; on an array of length two it differs from it. *)
Theorem soft_threshold_whole_vector_max (R : rcfType) n (x : 'cV[R]_n)
    (thresh : R) :
  let M := \big[Num.max/0]_(j < n) (`|x j 0| - thresh) in
  [/\ forall i, soft_threshold x thresh i 0 = Num.sg (x i 0) * M,
      [/\ 0 <= M, forall j, `|x j 0| - thresh <= M
        & M = 0 \/ exists j, M = `|x j 0| - thresh],
      forall i, `|soft_threshold x thresh i 0| = if x i 0 == 0 then 0 else M,
      forall x1 : 'cV[R]_1,
        soft_threshold x1 thresh = soft_threshold_elementwise x1 thresh
    & exists x2 : 'cV[R]_2, exists t,
        soft_threshold x2 t != soft_threshold_elementwise x2 t].
Proof.
move=> M; split.
- by move=> i; rewrite soft_thresholdE.
- split; first exact: bigmax_ge_id.
  + by move=> j; rewrite /M; apply: (le_bigmax _ (fun j => `|x j 0| - thresh)).
  + exact: (bigmax0_attained (fun j => `|x j 0| - thresh)).
- by move=> i; rewrite soft_threshold_abs.
- by move=> x1; rewrite soft_threshold_length_one.
- by exists (vec2 1 3), 1; exact: soft_threshold_differs.
Qed.

(** C10, as stated, fails: on [x = (0, 2)] with threshold [1] the result is
    [(0, 1)], whose two components differ in absolute value. *)
Lemma soft_threshold_unequal_magnitudes :
  let x : 'cV[algR]_2 := vec2 0 2 in
  `|soft_threshold x 1 ord0 0| != `|soft_threshold x 1 (lift ord0 ord0) 0|.
Proof.
rewrite /= !soft_threshold_abs bigmax_vec2 !mxE /= eqxx.
rewrite normr0 normr_nat pnatr_eq0 /=.
have -> : Num.max (2 - 1) 0 = 1 :> algR by rewrite maxEle; case: ifP => //; lra.
have -> : Num.max (0 - 1) 1 = 1 :> algR by rewrite maxEle; case: ifP => //; lra.
by rewrite eq_sym oner_eq0.
Qed.

(** ** Householder QR and linear regression *)

(** C5.  For an [m] x [n] matrix [A] with [n <= m] and full column rank
    (which makes every pivot sub-column non-zero: [pivot_nonzero]), [qr A]
    returns a pair [(Q, Rm)] with [Q Rm = A], [Q^T Q = 1] and [Rm] zero below
    the diagonal. *)

Theorem qr_is_a_factorization (R : rcfType) m n (A : 'M[R]_(m, n)) :
  (n <= m)%N -> row_full A ->
  exists Q Rm,
    [/\ qr A = Some (Q, Rm), Q *m Rm = A, Q^T *m Q = 1%:M
      & forall (r : 'I_m) (j : 'I_n), (j < r)%N -> Rm r j = 0].
Proof. by move=> _; apply: qr_correct. Qed.

(** The factorization of the 3 x 2 matrix with the identity on top of a
    zero row. *)

Lemma qr_is_a_factorization_witness :
  exists Q Rm,
    [/\ qr (col_mx 1%:M 0 : 'M[algR]_(2 + 1, 2)) = Some (Q, Rm),
        Q *m Rm = col_mx 1%:M 0, Q^T *m Q = 1%:M
      & forall (r : 'I_(2 + 1)) (j : 'I_2), (j < r)%N -> Rm r j = 0].
Proof.
exact: (@qr_is_a_factorization algR (2 + 1) 2 (col_mx 1%:M 0) isT
          (col_mx1_full algR 2 1)).
Defined.

(** C6.  For a design [x] of full column rank, [beta_qr] is computed (no
    step fails) and is the minimiser of the sum of squared residuals, the
    only one: what the reference solver returns. *)

Theorem beta_qr_is_least_squares (R : rcfType) P d (x : 'M[R]_(P + d, P))
    (y : 'cV[R]_(P + d)) :
  row_full x ->
  exists beta,
    [/\ beta_qr x y = Some beta, least_squares x y beta
      & forall b, least_squares x y b -> b = beta].
Proof.
move=> full; have [beta [run ne]] := beta_qr_normal y full.
by exists beta; have [ls uniq] := least_squares_unique full ne.
Qed.

(** The regression of [(1, 1, 1)] on the 3 x 2 design with the identity on
    top of a zero row. *)

Lemma beta_qr_is_least_squares_witness :
  exists beta,
    [/\ beta_qr (col_mx 1%:M 0 : 'M[algR]_(2 + 1, 2)) (const_mx 1) = Some beta,
        least_squares (col_mx 1%:M 0 : 'M[algR]_(2 + 1, 2)) (const_mx 1) beta
      & forall b,
          least_squares (col_mx 1%:M 0 : 'M[algR]_(2 + 1, 2)) (const_mx 1) b ->
          b = beta].
Proof.
exact: (@beta_qr_is_least_squares algR 2 1 (col_mx 1%:M 0) (const_mx 1)
          (col_mx1_full algR 2 1)).
Defined.

(** C9, as the code has it.  No cell of the five notebooks raises a shape
    error, and every matrix that they construct has at most 1000 rows and at
    most 1000 columns; in the conjugate-gradient notebook whatever the number
    of turns of the loop. *)
Theorem notebook_matrix_shapes (turns : nat) :
  [&& bounded 1000 1000 admm_notebook, bounded 1000 1000 qr_notebook,
      bounded 1000 1000 (cg_notebook turns), bounded 1000 1000 ekf_notebook
    & bounded 1000 1000 glasso_notebook].
Proof. by rewrite cg_notebook_bounded; vm_compute. Qed.

(** C9, as stated, fails: the factor [Q] that [qr] returns on the 100 x 5
    design has 100 rows and 100 columns, and [t(X)] in the ADMM notebook has
    11 rows and 1000 columns, both more than 11 columns. *)
Lemma qr_orthogonal_factor_has_100_columns :
  [/\ omap fst (qr_notebook [::]) = Some ([:: 100; 100], [:: 100; 5])%N,
      ~~ within 1000 11 [:: 100; 100]%N,
      ~~ bounded 1000 11 qr_notebook,
      exists r log, admm_notebook [::] = Some (r, log)
                    /\ ([:: 11; 1000]%N \in log)
    & ~~ bounded 1000 999 admm_notebook].
Proof.
split; try by vm_compute.
by vm_compute; do 2!eexists; split; [reflexivity | vm_compute].
Qed.

(** ** Conjugate gradients *)

(** C3.  The loop stops as soon as no component of [rk] exceeds the
    tolerance, whatever its sign.  On the positive definite [A = (1)],
    [b = (5)] and the start [xk = (0)] it stops at once, with any fuel, and
    the residual [A xk - b = -5] is larger than the tolerance in absolute
    value. *)

Theorem cg_exit_ignores_negative_residuals (R : rcfType) (fuel : nat) :
  let A : 'M[R]_1 := 1%:M in
  let b : 'cV[R]_1 := const_mx 5 in
  let x0 : 'cV[R]_1 := 0 in
  exists s, [/\ spd A, conjugate_gradient fuel A b x0 = Finished 0 s, xk s = x0,
                (A *m xk s - b) 0 0 = -5
              & tolerance R < `|(A *m xk s - b) 0 0|].
Proof.
move=> A b x0; exists (CgState x0 (A *m x0 - b) (- (A *m x0 - b))).
have res : (A *m x0 - b) 0 0 = -5 by rewrite mulmx0 sub0r !mxE.
split=> //; first exact: spd1.
- rewrite /conjugate_gradient.
  have /negbTE exit : ~~ cg_continue (CgState x0 (A *m x0 - b) (- (A *m x0 - b))).
    apply/existsP => -[i]; rewrite /= (ord1 i) res => lt.
    have := lt_trans (tolerance_gt0 R) lt.
    by rewrite oppr_gt0 ltNge ler0n.
  by case: fuel => [|f] /=; rewrite exit.
- rewrite /= res normrN normr_nat; apply: lt_trans (tolerance_lt1 R) _.
  by rewrite ltr1n.
Qed.

(** C4, as the code has it.  The [for] loops run a number of turns that is
    fixed before they start, unless a turn raises an error: 100 turns for
    ADMM, which ends for every [rho > 0]; [n - (m == n)] turns for [qr] on an
    [m] x [n] matrix, which ends for every matrix of full column rank; the
    items of [seq(maxit)] sweeps of [p] turns each for the graphical lasso.
    The conjugate-gradient loop has no fixed count; for a symmetric positive
    definite [A] of size [n] it ends, in exact arithmetic, after some
    [k <= n] turns, without a division by zero, whatever [b] and the
    start. *)

Theorem loops_terminate (R : rcfType) n (A : 'M[R]_n) (b x0 : 'cV[R]_n)
    m q (X : 'M[R]_(m, q)) (y : 'cV[R]_m) (lambda rho : R)
    m' n' (B : 'M[R]_(m', n')) p
    (glmnet : 'M[R]_p -> 'cV[R]_p -> R -> option 'cV[R]_p)
    (S : 'M[R]_p.+1) (lam : R) (maxit : nat) :
  spd A -> 0 < rho -> row_full B ->
  [/\ exists s, admm X y lambda rho = Finished 100 s,
      (exists s, qr_loop B = Finished (n' - (m' == n')) s)
      /\ (forall (C : 'M[R]_(m', n')) k s,
            qr_loop C = Finished k s -> k = (n' - (m' == n'))%N),
      (forall k s, glasso_loop glmnet S lam maxit = Finished k s ->
         k = size (seq_R maxit))
      /\ (forall WP k s, glasso_sweep glmnet S lam WP = Finished k s ->
            k = p.+1)
    & exists k s, (k <= n)%N /\
        forall fuel, (k <= fuel)%N ->
          conjugate_gradient fuel A b x0 = Finished k s].
Proof.
move=> spdA rho0 full; split; last exact: cg_terminates.
- by eexists; apply: admm_finished.
- split; first exact: qr_loop_full.
  by move=> C k s e; rewrite (for_each_turns e) size_iota.
- split=> [k s|WP k s] e; rewrite (for_each_turns e) //.
  by rewrite size_enum_ord.
Qed.

(** The loops on small inputs: ADMM on the 2 x 2 identity; [qr] on the 3 x 2
    matrix with the identity on top of a zero row, two turns; one sweep of
    the graphical lasso on the 3 x 3 identity with a solver that returns
    zero; conjugate gradients on the 2 x 2 identity with [b = (-5, -1)] from
    the start [0], where the loop makes one turn. *)

Lemma loops_terminate_witness :
  [/\ exists s, admm (1%:M : 'M[algR]_2) (vec2 2 0) 0 1 = Finished 100 s,
      exists s, qr_loop (col_mx 1%:M 0 : 'M[algR]_(2 + 1, 2)) = Finished 2 s,
      exists s, glasso_loop (fun _ _ _ => Some 0) (1%:M : 'M[algR]_3) 1 1
                = Finished 1 s
    & exists k s, [/\ (0 < k)%N, (k <= 2)%N,
        conjugate_gradient 2 (1%:M : 'M[algR]_2) (vec2 (-5) (-1)) 0
        = Finished 1 (CgState (vec2 (-5) (-1)) 0 0)
        & forall fuel, (k <= fuel)%N ->
          conjugate_gradient fuel (1%:M : 'M[algR]_2) (vec2 (-5) (-1)) 0
          = Finished k s]].
Proof.
have [adm [qrl _] [gl _] [k [s [le run]]]] :=
  @loops_terminate algR 2 1%:M (vec2 (-5) (-1)) 0 2 2 1%:M (vec2 2 0) 0 1
    (2 + 1) 2 (col_mx 1%:M 0) 2 (fun _ _ _ => Some 0) 1%:M 1 1
    (spd1 algR 2) ltr01 (col_mx1_full algR 2 1).
have nz (r : 'I_3) : (1%:M : 'M[algR]_3) r r + 1 != 0.
  by rewrite mxE eqxx -[1%:R + 1]/(2%:R) pnatr_eq0.
have [WP sweep] :=
  @glasso_zero_solver algR 2 1%:M 1 1 (symmetric_scalar _ _) nz.
have neg : exists i, (vec2 (-5) (-1) : 'cV[algR]_2) i 0 < - tolerance algR.
  exists 0; rewrite vec2E0 ltrN2; apply: lt_trans (tolerance_lt1 _) _.
  by rewrite ltr1n.
have one := cg_identity_one_turn 1 neg.
split=> //; first by exists WP.
exists k, s; split=> //.
have := run 2%N le; rewrite one => -[<- _].
by [].
Defined.

(** C4, as stated, fails: the number of turns of the conjugate-gradient
    loop is not fixed in advance.  With [A = (1)] and [b = (0)] it runs no
    turn from the start [(0)] and one turn from the start [(1)]. *)

Lemma cg_iterations_depend_on_input :
  let A : 'M[algR]_1 := 1%:M in
  exists s s',
    conjugate_gradient 1 A 0 0 = Finished 0 s
    /\ conjugate_gradient 1 A 0 (const_mx 1) = Finished 1 s'.
Proof.
rewrite /= /conjugate_gradient !mulmx0 !subr0 oppr0 mul1mx.
set s0 := CgState 0 0 0; set s1 := CgState _ _ _.
exists s0, (cg_step 1%:M s1).
have exit0 : cg_continue s0 = false.
  apply/negbTE/existsP => -[i]; rewrite /= mxE => lt.
  by have := lt_trans (tolerance_gt0 algR) lt; rewrite ltxx.
split; first by rewrite /= exit0.
have go1 : cg_continue s1.
  by apply/existsP; exists 0; rewrite /= mxE tolerance_lt1.
have d1 : dot (const_mx 1 : 'cV[algR]_1) (const_mx 1) = 1.
  by rewrite dot1 mxE mulr1.
have r1 : rk (cg_step 1%:M s1) = 0.
  rewrite /cg_step /= trmx1 !mul1mx dotNl dotNr opprK d1 divr1 scale1r.
  by rewrite subrr.
have exit1 : ~~ cg_continue (cg_step 1%:M s1).
  apply/existsP => -[i]; rewrite r1 mxE => lt.
  by have := lt_trans (tolerance_gt0 algR) lt; rewrite ltxx.
have body1 : cg_body 1%:M s1 = Some (cg_step 1%:M s1).
  apply: cg_bodyE; rewrite /= ?trmx1 ?mul1mx ?dotNl ?dotNr ?opprK d1.
    exact: oner_neq0.
  exact: oner_neq0.
by rewrite /= go1 body1 (negbTE exit1).
Qed.

(** ** Extended Kalman filter *)

(** C2.  [update_posterior_mean] subtracts [2] from every component of the
    innovation: it returns the stated [mu_p + K (y - h(mu_p, 0))] minus
    [K (2, ..., 2)].  With one state, [K = (1)], [mu_p = y = (0)] the two
    differ, whatever [k], [beta] and the cosine. *)

Theorem update_posterior_mean_subtracts_two (R : rcfType) (cos : R -> R) n
    (y mu_p : 'cV[R]_n) (K : 'M[R]_n) (k beta : R) :
  let h := observation_model cos mu_p 0 k beta in
  update_posterior_mean y mu_p 0 k beta (@observation_model R cos n) mu_p K
  = mu_p + K *m (y - h) - K *m const_mx 2
  /\ update_posterior_mean (0 : 'cV[R]_1) 0 0 k beta (@observation_model R cos 1) 0 1%:M
     != 0 + 1%:M *m (0 - observation_model cos 0 0 k beta).
Proof.
move=> h; rewrite /update_posterior_mean -/h; split.
  by rewrite mulmxBr addrA.
rewrite !add0r !mul1mx; set o := observation_model _ _ _ _ _.
apply/eqP => /colP /(_ 0); rewrite !mxE => e.
have : (2 : R) = 0 by lra.
by move/eqP; rewrite pnatr_eq0.
Qed.

(** C7, as the code has it.  In exact arithmetic, for symmetric positive
    semi-definite [cov_m], [cov_v], [cov_w] and [cov_p], and any Jacobians
    [A], [L], [B], [J] (diagonal or not), the prior covariance is symmetric
    positive semi-definite, and so is the posterior covariance for the gain
    [K] that [k_k] computes from the same [cov_p]. *)

Theorem covariance_updates_preserve_psd (R : rcfType) n
    (cov_m cov_v cov_w cov_p A L B J : 'M[R]_n) :
  symmetric cov_m -> psd cov_m -> symmetric cov_v -> psd cov_v ->
  symmetric cov_w -> psd cov_w -> symmetric cov_p -> psd cov_p ->
  [/\ symmetric (update_prior_covariance cov_m cov_v A L),
      psd (update_prior_covariance cov_m cov_v A L)
    & forall K, k_k cov_p cov_w B J = Some K ->
        symmetric (update_posterior_covariance K B cov_p)
        /\ psd (update_posterior_covariance K B cov_p)].
Proof.
move=> sm pm sv pv sw pw sp pp.
have [s1 p1] := update_prior_covariance_psd A L sm pm sv pv.
by split=> // K; apply: update_posterior_covariance_psd.
Qed.

(** Scalar covariances and Jacobians of size 2, for which [k_k] returns a
    gain. *)

Lemma covariance_updates_witness :
  let cov_m : 'M[algR]_2 := 0%:M in
  let cov_v : 'M[algR]_2 := (4^-1)%:M in
  let cov_w : 'M[algR]_2 := (4^-1)%:M in
  let cov_p : 'M[algR]_2 := 1%:M in
  let A : 'M[algR]_2 := 2%:M in
  let B : 'M[algR]_2 := (-1)%:M in
  let J : 'M[algR]_2 := 1%:M in
  [/\ symmetric (update_prior_covariance cov_m cov_v A A),
      psd (update_prior_covariance cov_m cov_v A A)
    & exists K, [/\ k_k cov_p cov_w B J = Some K,
        symmetric (update_posterior_covariance K B cov_p)
        & psd (update_posterior_covariance K B cov_p)]].
Proof.
move=> cov_m cov_v cov_w cov_p A B J.
have q0 : (0 : algR) <= 4^-1 by lra.
have [] := @covariance_updates_preserve_psd _ 2 cov_m cov_v cov_w cov_p A A B J
  (symmetric_scalar _ _) (@psd_scalar _ _ _ (lexx 0))
  (symmetric_scalar _ _) (@psd_scalar _ _ _ q0)
  (symmetric_scalar _ _) (@psd_scalar _ _ _ q0)
  (symmetric_scalar _ _) (@psd_scalar _ _ _ ler01).
move=> s1 p1 post; split=> //.
have unitS : B *m (cov_p *m B^T) + J *m (cov_w *m J^T) \in unitmx.
  rewrite !tr_scalar_mx -!scalar_mxM -raddfD /=; apply: unitmx_scalar.
  by rewrite mul1r mulN1r opprK mul1r; apply: lt0r_neq0; lra.
have defK : k_k cov_p cov_w B J
    = Some (cov_p *m B^T *m invmx (B *m (cov_p *m B^T) + J *m (cov_w *m J^T))).
  by rewrite /k_k /inv unitS.
by exists (cov_p *m B^T *m invmx (B *m (cov_p *m B^T) + J *m (cov_w *m J^T)));
  have [s2 p2] := post _ defK.
Defined.

(** C7, as stated, fails in the arithmetic of the notebook.  In binary64,
    with [cov_p = [[1.]]], [cov_w = [[0.]]], [B = [[31.]]] and [J = [[1.]]],
    all positive semi-definite, [k_k] returns the rounded quotient [31 / 961]
    and [update_posterior_covariance] returns [-2^-52], a negative entry. *)

Lemma posterior_covariance_negative_in_binary64 :
  exists K,
    [/\ psd_binary64 1%float, psd_binary64 0%float,
        k_k_binary64 1%float 0%float 31%float 1%float = Some K,
        update_posterior_covariance_binary64 K 31%float 1%float
        = (-0x1p-52)%float
      & psd_binary64 (update_posterior_covariance_binary64 K 31%float 1%float)
        = false].
Proof. by eexists; split; [| | reflexivity | |]. Qed.

(** ** Random inputs *)

(** C8.  The data cell of the ADMM notebook sets no seed: its [beta] is read
    from the state the session is in.  Whatever the generator, two states
    from which the first [p] draws differ give different [beta]. *)

Theorem admm_beta_follows_the_session (R : rcfType) (G : generator R)
    (n p : nat) (g g' : gstate G) :
  (draws G p g).1 != (draws G p g').1 ->
  (admm_simulate G n p g).1.1 != (admm_simulate G n p g').1.1.
Proof.
by apply: contra_neq; apply: admm_simulate_beta_inj.
Qed.

(** The generator [counter] from the states [0] and [1]. *)

Lemma admm_beta_follows_the_session_witness :
  (admm_simulate counter 1000 10 0%N).1.1
  != (admm_simulate counter 1000 10 1%N).1.1.
Proof.
have differ : (draws counter 10 0%N).1 != (draws counter 10 1%N).1.
  by rewrite /= eqseq_cons eq_sym oner_eq0.
exact: (@admm_beta_follows_the_session algR counter 1000 10 0%N 1%N differ).
Defined.

(** * Part IV: further properties of the code *)

(** ** Householder reflections and [qr] *)

(** X1.  On a non-zero array [a], [House] returns a matrix that sends [a] to
    [-copysign(norm(a), a[0])] times the first unit vector: every entry of
    [a] below the first is cancelled, and the length is kept. *)

Theorem House_reflects_onto_first_axis (R : rcfType) k (a : 'cV[R]_k.+1) :
  a != 0 ->
  exists Hi, House a = Some Hi
    /\ Hi *m a = (- copysign (norm a) (a 0 0)) *: delta_mx 0 0.
Proof. exact: House_apply. Qed.

(** The array [(3, 4)]. *)

Lemma House_reflects_onto_first_axis_witness :
  exists Hi, House (vec2 3 4 : 'cV[algR]_2) = Some Hi
    /\ Hi *m vec2 3 4
       = (- copysign (norm (vec2 3 4 : 'cV[algR]_2)) (vec2 3 4 0 0))
         *: delta_mx 0 0.
Proof.
have three : (3 : algR) != 0 by rewrite pnatr_eq0.
exact: (@House_reflects_onto_first_axis algR 1 (vec2 3 4) (vec2_neq0 4 three)).
Defined.

(** X2.  On an array of two entries or more, [House] divides by zero exactly
    when the array is zero. *)

Theorem House_divides_by_zero_only_on_zero (R : rcfType) k (a : 'cV[R]_k.+2) :
  isSome (House a) = (a != 0).
Proof.
case: (eqVneq a 0) => [->|a0]; first by rewrite House_zero.
by have [Hi [-> _]] := House_apply a0.
Qed.

(** X3.  [qr] on a matrix with fewer rows than columns does not return: the
    loop reaches a column index that is no row index. *)

Theorem qr_needs_as_many_rows_as_columns (R : rcfType) m n (A : 'M[R]_(m, n)) :
  (m < n)%N -> qr A = None.
Proof. exact: qr_wide. Qed.

(** A matrix of one row and two columns. *)

Lemma qr_needs_as_many_rows_as_columns_witness :
  qr (const_mx 1 : 'M[algR]_(1, 2)) = None.
Proof.
exact: (@qr_needs_as_many_rows_as_columns algR 1 2 (const_mx 1) isT).
Defined.

(** X4.  [qr] on a matrix of two rows or more whose first column is zero
    returns no matrix of real numbers: the first call of [House] divides by
    zero. *)

Theorem qr_fails_on_a_zero_first_column (R : rcfType) m n
    (A : 'M[R]_(m.+2, n.+1)) :
  col 0 A = 0 -> qr A = None.
Proof. exact: qr_zero_column. Qed.

(** The zero matrix of size 2 x 1. *)

Lemma qr_fails_on_a_zero_first_column_witness :
  qr (0 : 'M[algR]_(2, 1)) = None.
Proof.
exact: (@qr_fails_on_a_zero_first_column algR 0 0 0 (col0 _ _ _)).
Defined.

(** X5.  When [y] is exactly [x b] for a design [x] of full column rank,
    [beta_qr] returns [b]. *)

Theorem beta_qr_recovers_the_coefficients (R : rcfType) P d
    (x : 'M[R]_(P + d, P)) (b : 'cV[R]_P) :
  row_full x -> beta_qr x (x *m b) = Some b.
Proof. exact: beta_qr_exact. Qed.

(** The 3 x 2 design with the identity on top of a zero row. *)

Lemma beta_qr_recovers_the_coefficients_witness :
  beta_qr (col_mx 1%:M 0 : 'M[algR]_(2 + 1, 2))
    ((col_mx 1%:M 0 : 'M[algR]_(2 + 1, 2)) *m vec2 2 5)
  = Some (vec2 2 5).
Proof.
exact: (@beta_qr_recovers_the_coefficients algR 2 1 (col_mx 1%:M 0) (vec2 2 5)
          (col_mx1_full algR 2 1)).
Defined.

(** ** Conjugate gradients *)

(** X6.  Whenever the loop ends, [rk] is the residual [A xk - b] of the
    returned [xk], and no component of it exceeds the tolerance. *)

Theorem cg_result_has_small_residual (R : rcfType) fuel n (A : 'M[R]_n)
    (b x0 : 'cV[R]_n) k s :
  conjugate_gradient fuel A b x0 = Finished k s ->
  rk s = A *m xk s - b /\ forall i, rk s i 0 <= tolerance R.
Proof. exact: cg_exit_condition. Qed.

(** The system [1 x = (-5, -1)] of size 2 from the start [0]: the loop makes
    one turn and ends with [xk = (-5, -1)] and a zero residual. *)

Lemma cg_result_has_small_residual_witness :
  exists s : cg_state algR 2,
    [/\ conjugate_gradient 2 1%:M (vec2 (-5) (-1)) 0 = Finished 1 s,
        xk s = vec2 (-5) (-1), rk s = 1%:M *m xk s - vec2 (-5) (-1)
      & forall i, rk s i 0 <= tolerance algR].
Proof.
have neg : exists i, (vec2 (-5) (-1) : 'cV[algR]_2) i 0 < - tolerance algR.
  exists 0; rewrite vec2E0 ltrN2; apply: lt_trans (tolerance_lt1 _) _.
  by rewrite ltr1n.
have run := cg_identity_one_turn 1 neg.
have [res small] := @cg_result_has_small_residual algR 2 2 1%:M
  (vec2 (-5) (-1)) 0 1 _ run.
by exists (CgState (vec2 (-5) (-1)) 0 0).
Defined.

(** X7.  For a symmetric positive definite [A], from a state whose direction
    is the opposite of its residual, and as long as the loop continues: no
    turn divides by zero, the residuals are orthogonal to each other and the
    directions are conjugate with respect to [A]. *)

Theorem cg_directions_are_conjugate (R : rcfType) n (A : 'M[R]_n)
    (s0 : cg_state R n) k :
  spd A -> pk s0 = - rk s0 ->
  (forall j, (j < k)%N -> cg_continue (iter j (cg_step A) s0)) ->
  (forall j, (j < k)%N ->
     cg_body A (iter j (cg_step A) s0) = Some (iter j.+1 (cg_step A) s0))
  /\ cg_inv A s0 k.
Proof. exact: cg_loop_steps. Qed.

(** One turn on the 2 x 2 identity from the residual [(1, 0)]. *)

Lemma cg_directions_are_conjugate_witness :
  let s0 : cg_state algR 2 := CgState 0 (vec2 1 0) (- vec2 1 0) in
  (forall j, (j < 1)%N ->
     cg_body 1%:M (iter j (cg_step 1%:M) s0) = Some (iter j.+1 (cg_step 1%:M) s0))
  /\ cg_inv 1%:M s0 1.
Proof.
move=> s0.
have go j : (j < 1)%N -> cg_continue (iter j (cg_step 1%:M) s0).
  case: j => // _; apply/existsP; exists 0.
  by rewrite /= vec2E0 tolerance_lt1.
exact: (@cg_directions_are_conjugate algR 2 1%:M s0 1 (spd1 algR 2) erefl go).
Defined.

(** X8.  The system of the notebook: whatever the generator and the Wishart
    draw, [A] is symmetric positive semi-definite and [b] is in its range,
    so that [A x = b] has a solution. *)

Theorem cg_notebook_system_is_solvable (R : rcfType) (G : generator R)
    (wishart_rvs : gstate G -> 'M[R]_5 * gstate G) (g0 : gstate G) :
  let A := (cg_simulate G wishart_rvs g0).1.1 in
  let b := (cg_simulate G wishart_rvs g0).1.2 in
  [/\ symmetric A, psd A & exists x, A *m x = b].
Proof.
rewrite /cg_simulate; case: wishart_rvs => W g1.
case: (draws G 5 g1) => xs g2; case: (draws G 5 g2) => x0 g3 /=.
split; [exact: gram_symmetric | exact: gram_psd |].
by exists (\col_i nth 0 xs i).
Qed.

(** ** Extended Kalman filter *)

(** X9.  With a positive semi-definite [cov_p], a positive definite [cov_w]
    and the Jacobian [j_k(k, dim)] of the notebook for [k != 0], the matrix
    that [k_k] inverts is invertible: [k_k] returns a gain. *)

Theorem k_k_returns_a_gain (R : rcfType) n (cov_p cov_w B : 'M[R]_n) (k : R) :
  psd cov_p -> (forall v : 'cV[R]_n, v != 0 -> 0 < dot v (cov_w *m v)) ->
  k != 0 ->
  exists K, k_k cov_p cov_w B (j_k k n) = Some K.
Proof. by move=> pp pw k0; apply: k_k_defined => //; apply: j_k_unit. Qed.

(** Identity covariances of size 2, [B = 0] and [k = 1]. *)

Lemma k_k_returns_a_gain_witness :
  exists K, k_k (1%:M : 'M[algR]_2) 1%:M 0 (j_k 1 2) = Some K.
Proof.
exact: (@k_k_returns_a_gain algR 2 1%:M 1%:M 0 1
          (@psd_scalar _ _ _ ler01) (spd1 algR 2).2 (oner_neq0 _)).
Defined.

(** X10.  The update never increases the covariance: for a symmetric
    positive semi-definite [cov_p], a positive semi-definite [cov_w] and the
    gain [K] of [k_k], the prior covariance minus the posterior covariance
    is positive semi-definite. *)

Theorem posterior_covariance_below_prior (R : rcfType) n
    (cov_p cov_w B J K : 'M[R]_n) :
  symmetric cov_p -> psd cov_p -> psd cov_w ->
  k_k cov_p cov_w B J = Some K ->
  psd (cov_p - update_posterior_covariance K B cov_p).
Proof. exact: posterior_below_prior. Qed.

(** Identity covariances and Jacobians of size 2. *)

Lemma posterior_covariance_below_prior_witness :
  let I2 : 'M[algR]_2 := 1%:M in
  let K := I2 *m I2^T *m invmx (I2 *m (I2 *m I2^T) + I2 *m (I2 *m I2^T)) in
  psd (I2 - update_posterior_covariance K I2 I2).
Proof.
move=> I2 K.
have unitS : I2 *m (I2 *m I2^T) + I2 *m (I2 *m I2^T) \in unitmx.
  rewrite /I2 trmx1 !mulmx1 -raddfD /=; apply: unitmx_scalar.
  by rewrite -[1 + 1]/(2%:R) pnatr_eq0.
have defK : k_k I2 I2 I2 I2 = Some K by rewrite /k_k /inv unitS.
exact: (@posterior_covariance_below_prior algR 2 I2 I2 I2 I2 K
          (symmetric_scalar _ _) (@psd_scalar _ _ _ ler01)
          (@psd_scalar _ _ _ ler01) defK).
Defined.

(** ** ADMM *)

(** X11.  When no entry of [x] exceeds the threshold in absolute value,
    [soft.threshold] returns the zero vector. *)

Theorem soft_threshold_vanishes_below_threshold (R : rcfType) n
    (x : 'cV[R]_n) (thresh : R) :
  (forall j, `|x j 0| <= thresh) -> soft_threshold x thresh = 0.
Proof. exact: soft_threshold_small. Qed.

(** The vector [(1, -1)] and the threshold [1]. *)

Lemma soft_threshold_vanishes_below_threshold_witness :
  soft_threshold (vec2 1 (-1) : 'cV[algR]_2) 1 = 0.
Proof.
have small (j : 'I_2) : `|(vec2 1 (-1) : 'cV[algR]_2) j 0| <= 1.
  by rewrite mxE; case: ifP => _; rewrite ?normrN normr1.
exact: (@soft_threshold_vanishes_below_threshold algR 2 (vec2 1 (-1)) 1 small).
Defined.

(** X12.  [soft.threshold] is odd in [x], and no entry of its result has the
    sign opposite to the entry of [x], whatever the threshold. *)

Theorem soft_threshold_is_odd (R : rcfType) n (x : 'cV[R]_n) (thresh : R) :
  soft_threshold (- x) thresh = - soft_threshold x thresh
  /\ forall i, 0 <= x i 0 * soft_threshold x thresh i 0.
Proof. by split; [exact: soft_threshold_opp | exact: soft_threshold_sign]. Qed.

(** X13.  With a single coefficient, [lambda = 0] and [rho > 0], the loop
    runs its 100 turns, and from the second turn on every turn multiplies
    the distance of [x] to the least-squares coefficient by
    [rho / (X^T X + rho)], a ratio strictly between 0 and 1. *)

Theorem admm_one_coefficient_contracts (R : rcfType) n (X : 'M[R]_(n, 1))
    (y : 'cV[R]_n) (rho : R) :
  0 < rho -> X != 0 ->
  let step := admm_update (invmx (X^T *m X + rho *: 1%:M)) (X^T *m y) 0 rho in
  let start := AdmmState (const_mx 1) (const_mx 1) (const_mx 1) in
  let c := rho / (dot X X + rho) in
  [/\ 0 < c < 1,
      admm X y 0 rho = Finished 100 (iter 100 step start)
    & forall k,
        x_step (iter k.+2 step start) - ols_coefficients X y
        = c ^+ k *: (x_step (iter 2 step start) - ols_coefficients X y)].
Proof.
move=> rho0 X0 step start c; have [g0 ratio] := admm_one_ratio rho0 X0.
split=> //; first exact: admm_finished.
by move=> k; apply: admm_one_error.
Qed.

(** The design [(1)], the response [(3)] and [rho = 1]. *)

Lemma admm_one_coefficient_contracts_witness :
  let X : 'M[algR]_1 := 1%:M in
  let y : 'cV[algR]_1 := const_mx 3 in
  let step := admm_update (invmx (X^T *m X + 1 *: 1%:M)) (X^T *m y) 0 1 in
  let start := AdmmState (const_mx 1) (const_mx 1) (const_mx 1) in
  let c : algR := 1 / (dot X X + 1) in
  [/\ 0 < c < 1,
      admm X y 0 1 = Finished 100 (iter 100 step start)
    & forall k,
        x_step (iter k.+2 step start) - ols_coefficients X y
        = c ^+ k *: (x_step (iter 2 step start) - ols_coefficients X y)].
Proof.
exact: (@admm_one_coefficient_contracts algR 1 1%:M (const_mx 3) 1 ltr01
          (oner_neq0 _)).
Defined.

(** ** Graphical lasso *)

(** X14.  For a symmetric sample covariance [S], whatever [glmnet] returns
    and however many sweeps are made: [W] and [P] stay symmetric, and the
    diagonal of [W] stays the diagonal of [S] plus [lambda]. *)

Theorem glasso_keeps_symmetry_and_diagonal (R : rcfType) q
    (glmnet : 'M[R]_q -> 'cV[R]_q -> R -> option 'cV[R]_q)
    (S : 'M[R]_q.+1) (lambda : R) (maxit : nat) W P :
  symmetric S -> glasso glmnet S lambda maxit = Some (W, P) ->
  [/\ symmetric W, symmetric P & forall r, W r r = S r r + lambda].
Proof. by move=> symS /(glasso_inv_holds symS). Qed.

(** One sweep on the 3 x 3 identity with [lambda = 1], with a solver that
    returns zero. *)

Lemma glasso_keeps_symmetry_and_diagonal_witness :
  exists W P,
    glasso (fun _ _ _ => Some 0) (1%:M : 'M[algR]_3) 1 1 = Some (W, P)
    /\ [/\ symmetric W, symmetric P
         & forall r, W r r = (1%:M : 'M[algR]_3) r r + 1].
Proof.
have nz (r : 'I_3) : (1%:M : 'M[algR]_3) r r + 1 != 0.
  by rewrite mxE eqxx -[1%:R + 1]/(2%:R) pnatr_eq0.
have [[W P] run] :=
  @glasso_zero_solver algR 2 1%:M 1 1 (symmetric_scalar _ _) nz.
have e : glasso (fun _ _ _ => Some 0) (1%:M : 'M[algR]_3) 1 1 = Some (W, P).
  by rewrite /glasso run.
exists W, P; split=> //.
exact: (@glasso_keeps_symmetry_and_diagonal algR 2 (fun _ _ _ => Some 0)
          1%:M 1 1 W P (symmetric_scalar _ _) e).
Defined.

(** X15.  After the update at the index [pi], the column [pi] of [W P] is
    the column [pi] of the identity: [P] holds, in that column, the inverse
    of the current [W]. *)

Theorem glasso_update_inverts_a_column (R : rcfType) q
    (glmnet : 'M[R]_q -> 'cV[R]_q -> R -> option 'cV[R]_q)
    (S : 'M[R]_q.+1) (lambda : R) W P pi W' P' :
  glasso_update glmnet S lambda (W, P) pi = Some (W', P') ->
  col pi (W' *m P') = delta_mx pi 0.
Proof. exact: glasso_update_column. Qed.

(** The update at the first index of [W = 2 I] of size 3, with a solver that
    returns zero. *)

Lemma glasso_update_inverts_a_column_witness :
  exists W' P',
    glasso_update (fun _ _ _ => Some 0) (1%:M : 'M[algR]_3) 1 (2%:M, 1%:M) 0
    = Some (W', P')
    /\ col 0 (W' *m P') = delta_mx 0 0.
Proof.
case e : (glasso_update _ _ _ _ _) => [[W' P']|].
  by exists W', P'; split=> //; exact: (glasso_update_inverts_a_column e).
move: e; rewrite /glasso_update /divide mulmx0 dot0r subr0 mxE unlift_none.
by rewrite mxE eqxx pnatr_eq0.
Defined.

(** X16.  [Lambda <- A %*% t(A) + 0.05 * diag(p)] is symmetric positive
    definite whatever [A] is drawn, so that [solve(Lambda)] returns. *)

Theorem glasso_precision_is_invertible (R : rcfType) p (A : 'M[R]_p) :
  spd (glasso_precision A)
  /\ solve (glasso_precision A) = Some (invmx (glasso_precision A)).
Proof.
have c0 : (0 : R) < 5 / 100 by rewrite divr_gt0 // ltr0n.
have pd := gram_shift_spd A c0; split=> //.
by rewrite /solve (pd_unitmx pd.2).
Qed.

(** ** The shapes of the arrays *)

(** X17.  Seen through the shapes alone, [qr] on an array of [m] rows and
    [n] columns raises no shape error and returns arrays of shapes [(m, m)]
    and [(m, n)] when [n <= m], whatever [m] and [n]; when [m < n] it raises
    an error, [a[0]] on an empty slice. *)

Theorem qr_shapes_of_any_matrix (m n : nat) (log : seq dims) :
  omap fst (qr_shapes [:: m; n] log)
  = if (n <= m)%N then Some ([:: m; m], [:: m; n]) else None.
Proof. exact: qr_shapes_result. Qed.
